(** * Emmet stylesheet snippets: [createSnippet], [getKeywords], [nest]

    A shallow embedding of [src/stylesheet/snippets.ts] and the properties of
    its three operations.

    Modelling conventions.
    - A JavaScript string is a [string]; a character stands for one UTF-16
      code unit below 256, and [code] gives its char code.
    - Snippet objects live in a store [gmap loc CSSSnippet]; a reference is a
      [loc], and object identity ([Array.prototype.includes], aliasing of a
      snippet in several [dependencies] arrays) is equality of [loc]s.
    - The [dependencies] array of a Property is owned by that Property (as
      [createSnippet] allocates it) and is kept inside the object; the array
      handed to [nest] is an object of its own in [arrays].
    - A lookup of a reference that is not in the store has no counterpart in
      JavaScript; the embedded functions answer [None] there. *)

From stdpp Require Import gmap strings list fin_maps sorting relations.
From Stdlib Require Import Ascii ZArith.

Local Open Scope string_scope.
Local Open Scope Z_scope.
Local Open Scope nat_scope.
Local Open Scope list_scope.

(** ** JavaScript strings *)

Definition code (c : ascii) : nat := nat_of_ascii c.

Module JsString.

(** [s.charCodeAt(n)]; [None] stands for [NaN]. *)
Definition charCodeAt (s : string) (n : nat) : option nat :=
  code <$> String.get n s.

(** [s.startsWith(pre)] *)
Fixpoint startsWith (s pre : string) {struct pre} : bool :=
  match pre, s with
  | "", _ => true
  | String _ _, "" => false
  | String p pre', String c s' => (code c =? code p) && startsWith s' pre'
  end.

(** [a < b] on strings: lexicographic on code units. *)
Fixpoint lt (a b : string) : bool :=
  match a, b with
  | _, "" => false
  | "", String _ _ => true
  | String x a', String y b' =>
      (code x <? code y) || ((code x =? code y) && lt a' b')
  end.

(** White space and line terminators, the class [\s] of a regular
    expression and the characters removed by [trim], below 256. *)
Definition is_space (c : ascii) : bool :=
  ((9 <=? code c) && (code c <=? 13)) || (code c =? 32) || (code c =? 160).

Fixpoint trimStart (s : string) : string :=
  match s with
  | "" => ""
  | String c s' => if is_space c then trimStart s' else s
  end.

Fixpoint trimEnd (s : string) : string :=
  match s with
  | "" => ""
  | String c s' =>
      match trimEnd s' with
      | "" => if is_space c then "" else String c ""
      | t => String c t
      end
  end.

(** [s.trim()] *)
Definition trim (s : string) : string := trimEnd (trimStart s).

(** [s.split(sep)] for a one-character separator: the piece before the
    first separator and the pieces after it. *)
Fixpoint split_pieces (sep : ascii) (s : string) : string * list string :=
  match s with
  | "" => ("", [])
  | String c s' =>
      let (piece, others) := split_pieces sep s' in
      if Ascii.eqb c sep then ("", piece :: others)
      else (String c piece, others)
  end.

Definition split (sep : ascii) (s : string) : list string :=
  let (piece, others) := split_pieces sep s in piece :: others.

End JsString.

(** ** Exceptions *)

Inductive exn : Type :=
| TypeError    (* a property read on [undefined] *)
| ParseError.  (* thrown by the value parser *)

Inductive outcome (A : Type) : Type :=
| Return (a : A)
| Throw (e : exn).
Arguments Return {A} a.
Arguments Throw {A} e.

#[global] Instance outcome_ret : MRet outcome := λ A a, Return a.
#[global] Instance outcome_bind : MBind outcome := λ A B f m,
  match m with
  | Return a => f a
  | Throw e => Throw e
  end.

(** ** Data model *)

(** Value nodes of [@emmetio/css-abbreviation]: the node kinds
    [getKeywords] tells apart, and one constructor for the others
    ([StringValue], [NumberValue], [ColorValue], [Field]). *)
Inductive Value : Type :=
| Literal (value : string)
| FunctionCall (name : string) (arguments : list CSSValue)
| OtherValue (type : string)
with CSSValue : Type :=
| MkCSSValue (value : list Value).

Definition css_value (v : CSSValue) : list Value :=
  match v with MkCSSValue l => l end.

(** An entry of the list [parse] returns; [value] is the field read here. *)
Record CSSProperty : Type := MkCSSProperty {
  prop_name : option string;
  prop_value : list CSSValue;
  prop_important : bool
}.

Record ParseOptions : Type := MkParseOptions { opt_value : bool }.

Definition loc : Type := positive.

Inductive CSSSnippet : Type :=
| Raw (key : string) (value : string)
| Property (key : string) (property : string) (value : list (list CSSValue))
           (dependencies : list loc).

Definition key (s : CSSSnippet) : string :=
  match s with
  | Raw k _ => k
  | Property k _ _ _ => k
  end.

Record CSSKeywordRef : Type := MkKeywordRef {
  keyword : string;
  index : nat
}.

(** [isProperty] *)
Definition isProperty (s : CSSSnippet) : bool :=
  match s with
  | Property _ _ _ _ => true
  | Raw _ _ => false
  end.

(** ** The regular expression [reProperty]
    [/^([a-z-]+)(?:\s*:\s*([^\n\r]+))?$/] *)

Module Re.
Import JsString.

(** What [String.prototype.match] returns on success: the two capture
    groups; [None] in [group2] is [undefined]. *)
Record RegExpMatch : Type := MkMatch {
  group1 : string;
  group2 : option string
}.

(** [[a-z-]] *)
Definition is_ident_char (c : ascii) : bool :=
  ((97 <=? code c) && (code c <=? 122)) || (code c =? 45).

(** The complement of [[^\n\r]] *)
Definition is_line_break (c : ascii) : bool :=
  (code c =? 10) || (code c =? 13).

Fixpoint all_chars (p : ascii → bool) (s : string) : bool :=
  match s with
  | "" => true
  | String c s' => p c && all_chars p s'
  end.

(** The longest prefix of characters in a class, and what follows it. *)
Fixpoint span (p : ascii → bool) (s : string) : string * string :=
  match s with
  | "" => ("", "")
  | String c s' =>
      if p c then let (a, b) := span p s' in (String c a, b)
      else ("", s)
  end.

(** [[^\n\r]+$] at the start of [s] *)
Definition re_payload (s : string) : option string :=
  match s with
  | "" => None
  | _ => if all_chars (λ c, negb (is_line_break c)) s then Some s else None
  end.

(** [\s*([^\n\r]+)$]: the greedy [\s*] first takes the next white space
    character, and gives it back when the rest does not match. *)
Fixpoint re_value (s : string) : option string :=
  match s with
  | "" => None
  | String c s' =>
      if is_space c then
        match re_value s' with
        | Some v => Some v
        | None => re_payload s
        end
      else re_payload s
  end.

(** [\s*:\s*([^\n\r]+)$] *)
Definition re_group (s : string) : option string :=
  match trimStart s with
  | String c r => if Ascii.eqb c ":" then re_value r else None
  | "" => None
  end.

(** [(?:\s*:\s*([^\n\r]+))?$]: the group when it matches, otherwise the
    end of the input. *)
Definition re_tail (s : string) : option (option string) :=
  match re_group s with
  | Some v => Some (Some v)
  | None => match s with "" => Some None | _ => None end
  end.

(** [value.match(reProperty)] *)
Definition exec (s : string) : option RegExpMatch :=
  let (ident, rest) := span is_ident_char s in
  match ident with
  | "" => None
  | _ => MkMatch ident <$> re_tail rest
  end.

End Re.

(** ** [createSnippet] *)

Definition opt : ParseOptions := {| opt_value := true |}.

Section Builder.

(** The parser of [@emmetio/css-abbreviation]; [None] when it throws. *)
Variable parse : string → ParseOptions → option (list CSSProperty).

(** [parse(value.trim(), opt)[0].value] *)
Definition parseValue (value : string) : outcome (list CSSValue) :=
  match parse (JsString.trim value) opt with
  | None => Throw ParseError
  | Some [] => Throw TypeError
  | Some (p :: _) => Return (prop_value p)
  end.

Definition createSnippet (key value : string) : outcome CSSSnippet :=
  match Re.exec value with
  | Some m =>
      match Re.group2 m with
      | None => Throw TypeError  (* [m[2].split] with [m[2]] undefined *)
      | Some m2 =>
          values ← mapM parseValue (JsString.split "|" m2);
          Return (Property key (Re.group1 m) values [])
      end
  | None => Return (Raw key value)
  end.

End Builder.

(** ** [getKeywords] *)

(** [keywordsFromValue]: the literal texts and function names of the nodes of
    one alternative, in order. *)
Definition keywordsFromValue (value : list CSSValue) : list string :=
  v ← value;
  kw ← css_value v;
  match kw with
  | Literal s => [s]
  | FunctionCall name _ => [name]
  | OtherValue _ => []
  end.

(** The two accumulators of the scan: [result] and the set [lookup]. *)
Definition seen : Type := (list CSSKeywordRef * gset string)%type.

(** [if (!lookup.has(keyword)) { result.push({ index, keyword }); lookup.add(keyword) }] *)
Definition see_keyword (index : nat) (acc : seen) (keyword : string) : seen :=
  if decide (keyword ∈ acc.2) then acc
  else (acc.1 ++ [MkKeywordRef keyword index], acc.2 ∪ {[keyword]}).

(** [for (let index = 0; index < item.value.length; index++)], entered at
    [index] with the alternatives from there on. *)
Fixpoint scan_values (index : nat) (value : list (list CSSValue)) (acc : seen)
  : seen :=
  match value with
  | [] => acc
  | alt :: rest =>
      scan_values (S index) rest
        (foldl (see_keyword index) acc (keywordsFromValue alt))
  end.

(** [if (!stack.includes(dep)) stack.push(dep)] *)
Definition push_dependency (stack : list loc) (dep : loc) : list loc :=
  if decide (dep ∈ stack) then stack else stack ++ [dep].

(** [while (i < stack.length)]: one unit of fuel per iteration. Every element
    of [stack] is typed [CSSSnippetProperty]; [None] also stands for a
    reference that breaks this. The final [stack] is returned next to
    [result]: it is the order in which the nodes were visited. *)
Fixpoint scan_loop (fuel : nat) (h : gmap loc CSSSnippet) (i : nat)
    (stack : list loc) (acc : seen) : option (list loc * list CSSKeywordRef) :=
  match stack !! i with
  | None => Some (stack, acc.1)
  | Some item =>
      match fuel with
      | O => None
      | S fuel' =>
          match h !! item with
          | Some (Property _ _ value dependencies) =>
              scan_loop fuel' h (S i)
                (foldl push_dependency stack dependencies)
                (scan_values 0 value acc)
          | _ => None
          end
      end
  end.

Definition getKeywords_visit (h : gmap loc CSSSnippet) (snippet : loc)
  : option (list loc * list CSSKeywordRef) :=
  s ← h !! snippet;
  scan_loop (size h) h 0 (if isProperty s then [snippet] else []) ([], ∅).

Definition getKeywords (h : gmap loc CSSSnippet) (snippet : loc)
  : option (list CSSKeywordRef) :=
  snd <$> getKeywords_visit h snippet.

(** ** [nest] *)

Record store : Type := MkStore {
  objs : gmap loc CSSSnippet;
  arrays : gmap loc (list loc)
}.

(** [snippetsSort] *)
Definition snippetsSort (a b : CSSSnippet) : Z :=
  if String.eqb (key a) (key b) then 0%Z
  else if JsString.lt (key a) (key b) then (-1)%Z else 1%Z.

(** [Array.prototype.sort(comparefn)]: the stable sort, by insertion. *)
Section ArraySort.
Context {A : Type} (comparefn : A → A → Z).

Fixpoint sort_insert (x : A) (l : list A) : list A :=
  match l with
  | [] => [x]
  | y :: l' =>
      if (comparefn x y <=? 0)%Z then x :: l else y :: sort_insert x l'
  end.

Definition array_sort (l : list A) : list A := foldr sort_insert [] l.
End ArraySort.

(** [cur.property.startsWith(prev.property)
     && cur.property.charCodeAt(prev.property.length) === 45] *)
Definition is_longhand_of (cur prev : string) : bool :=
  JsString.startsWith cur prev
  && bool_decide (JsString.charCodeAt cur (String.length prev) = Some 45).

(** The [while (stack.length)] loop and the [if (!stack.length)] after it, for
    one [cur]. The stack is kept top first. *)
Fixpoint nest_place (h : gmap loc CSSSnippet) (cur : loc) (property : string)
    (stack : list loc) : option (gmap loc CSSSnippet * list loc) :=
  match stack with
  | [] => Some (h, [cur])
  | prev :: below =>
      match h !! prev with
      | Some (Property k p v dependencies) =>
          if is_longhand_of property p then
            Some (<[prev := Property k p v (dependencies ++ [cur])]> h,
                  cur :: prev :: below)
          else nest_place h cur property below
      | _ => None
      end
  end.

(** [for (const cur of snippets.filter(isProperty))] *)
Fixpoint nest_loop (props : list loc) (h : gmap loc CSSSnippet)
    (stack : list loc) : option (gmap loc CSSSnippet * list loc) :=
  match props with
  | [] => Some (h, stack)
  | cur :: rest =>
      match h !! cur with
      | Some (Property _ property _ _) =>
          '(h', stack') ← nest_place h cur property stack;
          nest_loop rest h' stack'
      | _ => None
      end
  end.

(** The elements of an array next to the objects they refer to. *)
Definition deref (h : gmap loc CSSSnippet) (l : list loc)
  : option (list (loc * CSSSnippet)) :=
  mapM (λ r, pair r <$> h !! r) l.

(** [nest(snippets)], [snippets] being the array at [a]: the array is sorted
    in place and [a] is returned. *)
Definition nest (a : loc) (st : store) : option (loc * store) :=
  snippets ← arrays st !! a;
  items ← deref (objs st) snippets;
  let sorted := array_sort (λ x y, snippetsSort x.2 y.2) items in
  let props := filter (λ x, isProperty x.2 = true) sorted in
  '(h', _) ← nest_loop props.*1 (objs st) [];
  Some (a, {| objs := h'; arrays := <[a := sorted.*1]> (arrays st) |}).

(** ** The dependency graph of a store *)

(** [b] is an element of [a.dependencies]. *)
Definition edge (h : gmap loc CSSSnippet) (a b : loc) : Prop :=
  ∃ k p v d, h !! a = Some (Property k p v d) ∧ b ∈ d.

(** [b] is [a] or a transitive dependency of [a]. *)
Definition reachable (h : gmap loc CSSSnippet) : relation loc := rtc (edge h).

(** Every element of a [dependencies] array refers to a Property of the
    store, as the type [CSSSnippetProperty[]] says. *)
Definition closed (h : gmap loc CSSSnippet) : Prop :=
  ∀ a b, edge h a b → ∃ k p v d, h !! b = Some (Property k p v d).

(** The keywords of the alternatives of one node, in order. *)
Definition node_keywords (h : gmap loc CSSSnippet) (r : loc) : list string :=
  match h !! r with
  | Some (Property _ _ value _) => concat (keywordsFromValue <$> value)
  | _ => []
  end.

(** The keyword references one alternative offers, and those of all the
    alternatives of a node from [index] on, in scan order. *)
Definition alt_entries (index : nat) (alt : list CSSValue)
  : list CSSKeywordRef :=
  (λ kw, MkKeywordRef kw index) <$> keywordsFromValue alt.

Definition value_entries (index : nat) (value : list (list CSSValue))
  : list CSSKeywordRef :=
  concat (imap (λ i, alt_entries (index + i)) value).

Definition node_entries (h : gmap loc CSSSnippet) (r : loc)
  : list CSSKeywordRef :=
  match h !! r with
  | Some (Property _ _ value _) => value_entries 0 value
  | _ => []
  end.

Definition see (acc : seen) (e : CSSKeywordRef) : seen :=
  see_keyword (index e) acc (keyword e).

(** [lookup] holds the keywords of [result], and [result] has each once. *)
Definition coherent (acc : seen) : Prop :=
  (∀ kw, kw ∈ acc.2 ↔ kw ∈ keyword <$> acc.1) ∧ NoDup (keyword <$> acc.1).

(** * Definitions of the statements *)

(** ** Strings and the language of [reProperty] *)

(** [a <= b] for keys: what [snippetsSort a b <= 0] says. *)
Definition key_le (a b : string) : Prop := a = b ∨ JsString.lt a b = true.

(** No character of [s] sorts before the hyphen; so it is for the names
    [reProperty] accepts. *)
Definition hyphen_least (s : string) : Prop :=
  Re.all_chars (λ c, 45 <=? code c) s = true.

(** The strings [[a-z-]+], [\s*] and [[^\n\r]+] match in full. *)
Definition is_ident (s : string) : Prop :=
  s ≠ "" ∧ Re.all_chars Re.is_ident_char s = true.

Definition is_spaces (s : string) : Prop :=
  Re.all_chars JsString.is_space s = true.

Definition is_payload (s : string) : Prop :=
  s ≠ "" ∧ Re.all_chars (λ c, negb (Re.is_line_break c)) s = true.

(** [s] matches [reProperty] in full: an identifier, alone or followed by
    white space, a colon, white space and a payload. *)
Definition matches_reProperty (s : string) : Prop :=
  ∃ ident,
    is_ident ident
    ∧ (s = ident
       ∨ ∃ w1 w2 payload,
           is_spaces w1 ∧ is_spaces w2 ∧ is_payload payload
           ∧ s = ident +:+ w1 +:+ String ":" (w2 +:+ payload)).

(** [b] does not start with a character of the class [p]. *)
Definition stops (p : ascii → bool) (b : string) : Prop :=
  match b with
  | "" => True
  | String c _ => p c = false
  end.

(** ** The traversal of [getKeywords] *)

Definition is_property_at (h : gmap loc CSSSnippet) (r : loc) : Prop :=
  ∃ k p v d, h !! r = Some (Property k p v d).

(** The invariant of the [while] loop of [getKeywords], entered from
    [root]. *)
Definition scan_inv (h : gmap loc CSSSnippet) (root : loc) (i : nat)
    (stack : list loc) (acc : seen) : Prop :=
  i ≤ length stack
  ∧ NoDup stack
  ∧ root ∈ stack
  ∧ (∀ x, x ∈ stack →
       reachable h root x ∧ ∃ k p v d, h !! x = Some (Property k p v d))
  ∧ (∀ j x y, j < i → stack !! j = Some x → edge h x y → y ∈ stack)
  ∧ acc = foldl see ([], ∅) (concat (node_entries h <$> take i stack)).

(** ** Keywords in the words of the specification *)

(** The keywords as the specification words them. A value node carries a
    keyword: a Literal its text, a FunctionCall its name; the arguments of a
    call are not looked at, and a node of another type carries none. *)
Inductive carries_keyword : Value → string → Prop :=
| carries_literal (text : string) : carries_keyword (Literal text) text
| carries_function (name : string) (arguments : list CSSValue) :
    carries_keyword (FunctionCall name arguments) name.

(** An alternative holds the keywords that its value nodes carry. *)
Definition alternative_holds (alt : list CSSValue) (kw : string) : Prop :=
  ∃ v n, v ∈ alt ∧ n ∈ css_value v ∧ carries_keyword n kw.

(** A Property snippet holds the keywords of its alternatives; a Raw snippet
    holds none. *)
Definition snippet_holds (h : gmap loc CSSSnippet) (r : loc) (kw : string)
  : Prop :=
  ∃ k p value d alt,
    h !! r = Some (Property k p value d) ∧ alt ∈ value
    ∧ alternative_holds alt kw.

(** ** Stores under [nest] *)

(** [x] is not after [y] in the order of a comparator. *)
Definition sorts_before {A : Type} (comparefn : A → A → Z) (x y : A) : Prop :=
  (comparefn x y ≤ 0)%Z.

(** The property name of the object at [r]. *)
Definition pname (h : gmap loc CSSSnippet) (r : loc) : option string :=
  match h !! r with
  | Some (Property _ p _ _) => Some p
  | _ => None
  end.

(** What [nest] may do to a store: it appends to [dependencies] arrays, and
    what it appends to the array of [p] has a name that is [p], a hyphen and
    more. *)
Definition nested_from (h h' : gmap loc CSSSnippet) : Prop :=
  ∀ r,
    match h !! r with
    | None => h' !! r = None
    | Some (Raw k v) => h' !! r = Some (Raw k v)
    | Some (Property k p v d) =>
        ∃ added,
          h' !! r = Some (Property k p v (d ++ added))
          ∧ ∀ c, c ∈ added →
              ∃ pc, pname h c = Some pc ∧ is_longhand_of pc p = true
    end.

(** A stack of [nest], top first: every element is a dependency of the one
    below it. *)
Fixpoint chain (h : gmap loc CSSSnippet) (stack : list loc) : Prop :=
  match stack with
  | x :: (y :: _) as below => edge h y x ∧ chain h below
  | _ => True
  end.

(** The name of [b] is the name of [a], a hyphen and more. *)
Definition longhand (h : gmap loc CSSSnippet) (a b : loc) : Prop :=
  ∃ pa pb, pname h a = Some pa ∧ pname h b = Some pb
           ∧ is_longhand_of pb pa = true.

Definition name_le (h : gmap loc CSSSnippet) (a b : loc) : Prop :=
  ∃ pa pb, pname h a = Some pa ∧ pname h b = Some pb ∧ key_le pa pb.

(** The key of the object at [r], and the key order on references. *)
Definition key_at (h : gmap loc CSSSnippet) (r : loc) : option string :=
  key <$> h !! r.

Definition loc_key_le (h : gmap loc CSSSnippet) (x y : loc) : Prop :=
  ∃ kx ky, key_at h x = Some kx ∧ key_at h y = Some ky ∧ key_le kx ky.

(** ** Example stores *)

(** A Property with its name as key and one literal per alternative. *)
Definition prop (name : string) (keywords : list string) (deps : list loc)
  : CSSSnippet :=
  Property name name ((λ kw, [MkCSSValue [Literal kw]]) <$> keywords) deps.

(** The same under a key of its own, without dependencies. *)
Definition prop_keyed (key name : string) (keywords : list string)
  : CSSSnippet :=
  Property key name ((λ kw, [MkCSSValue [Literal kw]]) <$> keywords) [].

(** The [dependencies] of the object at [r]. *)
Definition edge_list (h : gmap loc CSSSnippet) (r : loc) : list loc :=
  match h !! r with
  | Some (Property _ _ _ d) => d
  | _ => []
  end.

(** A stand-in for the parser, for the examples: no result on the empty
    text, otherwise one value holding the text as a literal. *)
Definition word_parse (text : string) (o : ParseOptions)
  : option (list CSSProperty) :=
  match text with
  | "" => Some []
  | _ => Some [MkCSSProperty None [MkCSSValue [Literal text]] false]
  end.

(** Two nodes that list each other. *)
Definition cycle_heap : gmap loc CSSSnippet :=
  list_to_map [(1%positive, prop "a" ["x"; "y"] [2%positive]);
               (2%positive, prop "b" ["y"; "z"] [1%positive])].

(** The store of [cycle_heap] after an object that the nodes do not reach
    was added. *)
Definition cycle_heap_later : gmap loc CSSSnippet :=
  <[3%positive := Raw "c" "text"]> cycle_heap.

(** Two nodes that list each other: a literal next to a call that has an
    argument, a literal that both nodes have, and a node of another type. *)
Definition call_heap : gmap loc CSSSnippet :=
  list_to_map
    [(1%positive,
      Property "a" "a"
        [[MkCSSValue [Literal "x";
                      FunctionCall "url" [MkCSSValue [Literal "inner"]]]]]
        [2%positive]);
     (2%positive,
      Property "b" "b"
        [[MkCSSValue [Literal "x"]];
         [MkCSSValue [OtherValue "NumberValue"; Literal "z"]]]
        [1%positive])].

(** The four names of the example, a Raw snippet among them, in an array
    that is not in key order. *)
Definition css_store : store :=
  {| objs := list_to_map
       [(1%positive, prop "border" ["solid"] []);
        (2%positive, prop "background-position-x" ["left"] []);
        (3%positive, Raw "bg" "background:#000");
        (4%positive, prop "background" ["none"] []);
        (5%positive, prop "background-position" ["top"] [])];
     arrays := {[ 9%positive := [1; 2; 3; 4; 5]%positive ]} |}.

(** [deps_ok] and [closedb]: [closed], by computation. *)
Definition deps_ok (h : gmap loc CSSSnippet) (s : CSSSnippet) : bool :=
  match s with
  | Raw _ _ => true
  | Property _ _ _ d =>
      forallb (λ b, match h !! b with
                    | Some (Property _ _ _ _) => true
                    | _ => false
                    end) d
  end.

Definition closedb (h : gmap loc CSSSnippet) : bool :=
  forallb (λ x, deps_ok h x.2) (map_to_list h).

(** Stores on which [nest] misses a longhand: a key that is not the property
    name, two Property snippets with one name, a name with a character that
    sorts before the hyphen. *)
Definition alias_store : store :=
  {| objs := list_to_map
       [(1%positive, Property "z" "background" [] []);
        (2%positive, Property "a" "background-position" [] [])];
     arrays := {[ 9%positive := [1; 2]%positive ]} |}.

Definition twin_store : store :=
  {| objs := list_to_map
       [(1%positive, prop "a" [] []); (2%positive, prop "a" [] []);
        (3%positive, prop "a-b" [] [])];
     arrays := {[ 9%positive := [1; 2; 3]%positive ]} |}.

Definition bang_store : store :=
  {| objs := list_to_map
       [(1%positive, prop "a" [] []); (2%positive, prop "a!" [] []);
        (3%positive, prop "a-b" [] [])];
     arrays := {[ 9%positive := [1; 2; 3]%positive ]} |}.

(** Every longhand of the array at [a] of [st] is linked and sorted after
    its shorthand: the property of [nest] without conditions on the input. *)
Definition links_every_longhand (a : loc) (st : store) : Prop :=
  ∀ snippets, arrays st !! a = Some snippets →
    ∃ st' out,
      nest a st = Some (a, st')
      ∧ arrays st' !! a = Some out
      ∧ ∀ x y px py u,
          x ∈ snippets → y ∈ snippets →
          pname (objs st) x = Some px → pname (objs st) y = Some py →
          py = px +:+ String "-" u →
          reachable (objs st') x y
          ∧ ∀ i j, out !! i = Some x → out !! j = Some y → i < j.


(** ** Appended dependencies, first entries, occurrences *)

(** The elements of [dependencies] of the object at [r] in [h] that come
    after those it has in [h0]. *)
Definition added (h0 h : gmap loc CSSSnippet) (r : loc) : list loc :=
  drop (length (edge_list h0 r)) (edge_list h r).

(** Every element of a [dependencies] array has a name that is the name of
    the owner, a hyphen and more. *)
Definition longhand_edges (h : gmap loc CSSSnippet) : Prop :=
  ∀ a b, edge h a b → longhand h a b.

(** Among [props] there is a name between those of [a] and [c]: a longhand
    of [a] that [c] is a longhand of. *)
Definition between (h : gmap loc CSSSnippet) (props : list loc) (a c : loc)
  : Prop :=
  ∃ b, b ∈ props ∧ longhand h a b ∧ longhand h b c.

(** A stack of [nest], top first, by names: every element is a longhand of
    the one below it. *)
Fixpoint name_chain (h : gmap loc CSSSnippet) (stack : list loc) : Prop :=
  match stack with
  | x :: (y :: _) as below => longhand h y x ∧ name_chain h below
  | _ => True
  end.

(** The entries of [es] whose keyword no earlier entry of [es] has. *)
Definition first_seen (es : list CSSKeywordRef) : list CSSKeywordRef :=
  (foldl see ([], ∅) es).1.

(** The keyword of a value node in the words of the specification: the text
    of a Literal, the name of a FunctionCall, none for a node of another
    type. *)
Definition keyword_of (n : Value) : option string :=
  match n with
  | Literal text => Some text
  | FunctionCall name _ => Some name
  | OtherValue _ => None
  end.

(** The keywords of an alternative, in the order of its value nodes. *)
Definition alternative_keywords (alt : list CSSValue) : list string :=
  omap keyword_of (concat (css_value <$> alt)).

(** The keywords of the alternatives of a snippet in order, each with the
    position of its alternative. *)
Definition own_entries (value : list (list CSSValue)) : list CSSKeywordRef :=
  concat (imap (λ i alt, (λ kw, MkKeywordRef kw i) <$> alternative_keywords alt)
            value).

(** Each keyword is recorded the first time it is seen: the entries of [es]
    in order, without those whose keyword is in [known] or is the keyword of
    an earlier entry. *)
Fixpoint first_entries (known : list string) (es : list CSSKeywordRef)
  : list CSSKeywordRef :=
  match es with
  | [] => []
  | e :: es =>
      if decide (keyword e ∈ known) then first_entries known es
      else e :: first_entries (keyword e :: known) es
  end.

(** How often the character [c] occurs in [s]. *)
Fixpoint occurrences (c : ascii) (s : string) : nat :=
  match s with
  | "" => 0
  | String x s' => (if Ascii.eqb x c then 1 else 0) + occurrences c s'
  end.

(** * Lemmas and theorems *)

(** ** Strings *)

Lemma code_inj c1 c2 : code c1 = code c2 → c1 = c2.
Proof.
  unfold code. intros H.
  by rewrite <-(ascii_nat_embedding c1), <-(ascii_nat_embedding c2), H.
Qed.

Lemma append_cons c s t : String c s +:+ t = String c (s +:+ t).
Proof. done. Qed.

Lemma append_nil t : "" +:+ t = t.
Proof. done. Qed.

Lemma append_nil_r s : s +:+ "" = s.
Proof. induction s as [|c s IH]; [done|]. by rewrite append_cons, IH. Qed.

Section StringOrder.
Import JsString.

Lemma lt_irrefl a : lt a a = false.
Proof.
  induction a as [|c a IH]; [done|]. cbn [lt].
  rewrite Nat.ltb_irrefl, Nat.eqb_refl. done.
Qed.

Lemma lt_trans a b c : lt a b = true → lt b c = true → lt a c = true.
Proof.
  revert b c. induction a as [|x a IH]; intros [|y b] [|z c]; try done.
  cbn [lt]. rewrite !orb_true_iff, !andb_true_iff, !Nat.ltb_lt, !Nat.eqb_eq.
  intros [?|[? ?]] [?|[? ?]]; try (left; lia). right. split; [lia|].
  by eapply IH.
Qed.

Lemma lt_total a b : a = b ∨ lt a b = true ∨ lt b a = true.
Proof.
  revert b. induction a as [|x a IH]; intros [|y b]; cbn [lt]; auto.
  rewrite !orb_true_iff, !andb_true_iff, !Nat.ltb_lt, !Nat.eqb_eq.
  destruct (lt_eq_lt_dec (code x) (code y)) as [[?|Heq]|?]; auto.
  apply code_inj in Heq as ->.
  destruct (IH b) as [->|[?|?]]; auto.
Qed.

Lemma key_le_refl a : key_le a a.
Proof. by left. Qed.

Lemma key_le_trans a b c : key_le a b → key_le b c → key_le a c.
Proof.
  intros [->|?] [->|?]; unfold key_le; auto. right. by eapply lt_trans.
Qed.

Lemma key_le_total a b : key_le a b ∨ key_le b a.
Proof. unfold key_le. destruct (lt_total a b) as [?|[?|?]]; auto. Qed.

Lemma key_le_antisym a b : key_le a b → key_le b a → a = b.
Proof.
  intros [?|Hab] [?|Hba]; try done.
  pose proof (lt_trans _ _ _ Hab Hba) as H. by rewrite lt_irrefl in H.
Qed.

Lemma startsWith_spec s pre : startsWith s pre = true ↔ ∃ u, s = pre +:+ u.
Proof.
  revert s. induction pre as [|p pre IH]; intros s; cbn.
  { split; [by exists s|done]. }
  destruct s as [|c s]; cbn.
  { split; [done|by intros [? ?]]. }
  rewrite andb_true_iff, Nat.eqb_eq, IH. split.
  - intros [->%code_inj [u ->]]. by exists u.
  - intros [u [= -> ->]]. eauto.
Qed.

Lemma charCodeAt_append pre u :
  charCodeAt (pre +:+ u) (String.length pre) = charCodeAt u 0.
Proof. unfold charCodeAt. induction pre as [|p pre IH]; [done|]. apply IH. Qed.

(** The test of [nest]: [cur] is [prev], a hyphen, and more. *)
Lemma is_longhand_of_spec cur prev :
  is_longhand_of cur prev = true ↔ ∃ u, cur = prev +:+ String "-" u.
Proof.
  unfold is_longhand_of.
  rewrite andb_true_iff, startsWith_spec, bool_decide_eq_true. split.
  - intros [[u ->] Hc]. rewrite charCodeAt_append in Hc.
    destruct u as [|c u]; [done|]. injection Hc as Hc.
    apply (code_inj c "-") in Hc as ->. by exists u.
  - intros [u ->]. split; [eauto|]. by rewrite charCodeAt_append.
Qed.

Lemma lt_longhand s u : lt s (s +:+ String "-" u) = true.
Proof.
  induction s as [|c s IH]; [done|]. rewrite append_cons. cbn [lt].
  by rewrite Nat.ltb_irrefl, Nat.eqb_refl, IH.
Qed.

Lemma key_le_cons x a y b :
  key_le (String x a) (String y b)
  ↔ code x < code y ∨ (x = y ∧ key_le a b).
Proof.
  unfold key_le. cbn [lt].
  rewrite orb_true_iff, andb_true_iff, Nat.ltb_lt, Nat.eqb_eq. split.
  - intros [[= -> ->]|[?|[->%code_inj ?]]]; auto.
  - intros [?|[-> [->|?]]]; auto.
Qed.

(** Between a name and one of its longhands, in key order, there are only
    the name itself and longhands of it. *)
Lemma between_longhand s c u :
  hyphen_least c →
  key_le s c → key_le c (s +:+ String "-" u) →
  c = s ∨ ∃ v, c = s +:+ String "-" v.
Proof.
  unfold hyphen_least. revert c.
  induction s as [|x s IH]; intros [|y c]; cbn [Re.all_chars]; auto.
  - rewrite append_nil, andb_true_iff, Nat.leb_le, key_le_cons.
    change (code "-") with 45. intros [Hy _] _ [?|[-> _]]; [lia|].
    right. by exists c.
  - intros _ [?|?]; done.
  - rewrite append_cons, andb_true_iff, !key_le_cons.
    intros [_ Hc] [?|[? H1]] [?|[? H2]]; subst; try lia.
    destruct (IH c Hc H1 H2) as [->|[v ->]]; eauto.
Qed.
End StringOrder.

(** ** The language of [reProperty] *)

Section Regex.
Import JsString Re.

Lemma all_chars_app p a b :
  all_chars p (a +:+ b) = all_chars p a && all_chars p b.
Proof.
  induction a as [|c a IH]; [done|]. rewrite append_cons. cbn.
  by rewrite IH, andb_assoc.
Qed.

Lemma span_spec p s :
  s = (span p s).1 +:+ (span p s).2
  ∧ all_chars p (span p s).1 = true
  ∧ stops p (span p s).2.
Proof.
  induction s as [|c s (IH1 & IH2 & IH3)]; [by cbn|]. cbn.
  destruct (p c) eqn:Hc; [|by cbn].
  destruct (span p s) as [a b]. cbn in *. rewrite Hc.
  split_and!; [by rewrite IH1 at 1|done..].
Qed.

Lemma span_app p a b :
  all_chars p a = true → stops p b → span p (a +:+ b) = (a, b).
Proof.
  intros Ha Hb. induction a as [|c a IH].
  - rewrite append_nil. destruct b as [|c b]; [done|]. cbn in *. by rewrite Hb.
  - cbn in Ha. apply andb_true_iff in Ha as [Hc Ha].
    rewrite append_cons. cbn. by rewrite Hc, IH.
Qed.

Lemma trimStart_spec s :
  ∃ w, s = w +:+ trimStart s ∧ is_spaces w ∧ stops is_space (trimStart s).
Proof.
  induction s as [|c s (w & IH1 & IH2 & IH3)]; [by exists ""|]. cbn.
  destruct (is_space c) eqn:Hc.
  - exists (String c w). rewrite append_cons, <-IH1.
    split_and!; [done| |done]. unfold is_spaces. cbn. by rewrite Hc.
  - by exists "".
Qed.

Lemma trimStart_app w s :
  is_spaces w → trimStart (w +:+ s) = trimStart s.
Proof.
  unfold is_spaces. induction w as [|c w IH]; [done|]. cbn.
  intros [Hc Hw]%andb_true_iff. rewrite append_cons. cbn. rewrite Hc. auto.
Qed.

Lemma trimStart_stops s : stops is_space s → trimStart s = s.
Proof. destruct s as [|c s]; [done|]. cbn. by intros ->. Qed.

Lemma re_payload_Some s v : re_payload s = Some v ↔ v = s ∧ is_payload s.
Proof.
  unfold re_payload, is_payload. destruct s as [|c s].
  { split; [done|]. by intros [_ [? _]]. }
  destruct (all_chars _ _); split; try done.
  - by intros [= <-].
  - by intros [-> _].
  - by intros [_ [_ ?]].
Qed.

(** What [\s*([^\n\r]+)$] captures is what follows some of the leading
    white space. *)
Lemma re_value_Some s v :
  re_value s = Some v → ∃ w, s = w +:+ v ∧ is_spaces w ∧ is_payload v.
Proof.
  revert v. induction s as [|c s IH]; intros v; [done|]. cbn [re_value].
  destruct (is_space c) eqn:Hc.
  - destruct (re_value s) as [v'|].
    + intros [= <-]. destruct (IH v') as (w & -> & Hw & Hv); [done|].
      exists (String c w). split_and!; [done| |done].
      unfold is_spaces. cbn. by rewrite Hc.
    + intros [-> ?]%re_payload_Some. by exists "".
  - intros [-> ?]%re_payload_Some. by exists "".
Qed.

Lemma re_value_is_Some w v :
  is_spaces w → is_payload v → is_Some (re_value (w +:+ v)).
Proof.
  intros Hw Hv. induction w as [|c w IH].
  - rewrite append_nil. destruct v as [|c v]; [by destruct Hv|].
    assert (re_payload (String c v) = Some (String c v)) as Hp
      by by apply re_payload_Some.
    cbn [re_value]. rewrite Hp. destruct (is_space c), (re_value v); eauto.
  - unfold is_spaces in Hw. cbn in Hw. apply andb_true_iff in Hw as [Hc Hw].
    rewrite append_cons. cbn [re_value]. rewrite Hc.
    destruct (IH Hw) as [v' ->]. eauto.
Qed.

Lemma ident_char_not_space c : is_ident_char c = true → is_space c = false.
Proof.
  unfold is_ident_char, is_space.
  rewrite !orb_true_iff, !andb_true_iff, !Nat.leb_le, !Nat.eqb_eq.
  intros H. apply not_true_iff_false.
  rewrite !orb_true_iff, !andb_true_iff, !Nat.leb_le, !Nat.eqb_eq. lia.
Qed.

Lemma stops_ident_tail w r : is_spaces w → stops is_ident_char (w +:+ String ":" r).
Proof.
  destruct w as [|c w]; [done|]. unfold is_spaces. cbn.
  intros [Hc _]%andb_true_iff. apply not_true_iff_false.
  intros ?%ident_char_not_space. congruence.
Qed.

Lemma colon_not_space : is_space ":" = false.
Proof. done. Qed.

Lemma re_group_Some s v :
  re_group s = Some v →
  ∃ w1 w2, s = w1 +:+ String ":" (w2 +:+ v)
           ∧ is_spaces w1 ∧ is_spaces w2 ∧ is_payload v.
Proof.
  unfold re_group. destruct (trimStart_spec s) as (w1 & Hs & Hw1 & _).
  destruct (trimStart s) as [|c r]; [done|].
  destruct (Ascii.eqb_spec c ":") as [->|]; [|done].
  intros (w2 & -> & Hw2 & Hv)%re_value_Some. by exists w1, w2.
Qed.

Lemma re_group_app w1 r :
  is_spaces w1 → re_group (w1 +:+ String ":" r) = re_value r.
Proof.
  intros Hw1. unfold re_group.
  by rewrite trimStart_app, trimStart_stops by done.
Qed.

(** [exec] answers for the strings of the language, and for no other. *)
Lemma exec_is_Some s : is_Some (exec s) ↔ matches_reProperty s.
Proof.
  unfold exec. split.
  - destruct (span_spec is_ident_char s) as (Hs & Hid & Hstop).
    destruct (span is_ident_char s) as [ident rest]. cbn in *.
    destruct ident as [|c ident]; [by intros [? ?]|].
    intros [m Hm]. exists (String c ident). split; [done|].
    unfold re_tail in Hm. destruct (re_group rest) as [v|] eqn:Hg.
    + apply re_group_Some in Hg as (w1 & w2 & -> & ? & ? & ?).
      right. by exists w1, w2, v.
    + destruct rest; [|done]. left. by rewrite Hs, append_nil_r.
  - intros (ident & [Hne Hid] & [->|(w1 & w2 & v & Hw1 & Hw2 & Hv & ->)]).
    + rewrite <-(append_nil_r ident), span_app by done.
      destruct ident; [done|]. by eexists.
    + rewrite span_app by (done || by apply stops_ident_tail).
      destruct ident; [done|]. unfold re_tail. rewrite re_group_app by done.
      destruct (re_value_is_Some w2 v) as [v' ->]; [done..|]. by eexists.
Qed.
End Regex.

Section BuilderFacts.
Import JsString Re.
Variable parse : string → ParseOptions → option (list CSSProperty).

Lemma exec_ident ident :
  is_ident ident → exec ident = Some (MkMatch ident None).
Proof.
  intros [Hne Hid]. unfold exec.
  rewrite <-(append_nil_r ident), span_app by done.
  rewrite append_nil_r. by destruct ident.
Qed.

Lemma exec_value ident w1 r :
  is_ident ident → is_spaces w1 →
  exec (ident +:+ w1 +:+ String ":" r)
  = (λ v, MkMatch ident (Some v)) <$> re_value r.
Proof.
  intros [Hne Hid] Hw1. unfold exec.
  rewrite span_app by (done || by apply stops_ident_tail).
  destruct ident as [|c ident]; [done|].
  unfold re_tail. rewrite re_group_app by done.
  destruct (re_value r) eqn:Hr; [done|]. cbn.
  destruct w1; by rewrite ?append_cons.
Qed.

Lemma space_not_bar c : is_space c = true → Ascii.eqb c "|" = false.
Proof.
  intros Hc. destruct (Ascii.eqb_spec c "|") as [->|]; [done|done].
Qed.

Lemma split_pieces_spaces w s :
  is_spaces w →
  split_pieces "|" (w +:+ s)
  = (w +:+ (split_pieces "|" s).1, (split_pieces "|" s).2).
Proof.
  unfold is_spaces.
  induction w as [|c w IH];
    [rewrite !append_nil; by destruct (split_pieces _ s)|].
  cbn. intros [Hc Hw]%andb_true_iff. rewrite append_cons. cbn.
  rewrite (IH Hw), (space_not_bar c Hc). done.
Qed.

Lemma parseValue_spaces w s :
  is_spaces w → parseValue parse (w +:+ s) = parseValue parse s.
Proof.
  intros Hw. unfold parseValue, trim. by rewrite trimStart_app.
Qed.

(** Leading white space of the payload changes no parsed alternative. *)
Lemma parse_alternatives_spaces w s :
  is_spaces w →
  mapM (parseValue parse) (split "|" (w +:+ s))
  = mapM (parseValue parse) (split "|" s).
Proof.
  intros Hw. unfold split. rewrite split_pieces_spaces by done.
  destruct (split_pieces "|" s) as [piece others]. cbn.
  by rewrite parseValue_spaces.
Qed.

(** On an identifier, a colon and a payload, with white space around the
    colon or without, [createSnippet] parses the alternatives of the payload
    from left to right and returns a Property without dependencies, or
    throws what the parser throws. *)
Lemma createSnippet_with_payload key ident w1 w2 payload :
  is_ident ident → is_spaces w1 → is_spaces w2 → is_payload payload →
  createSnippet parse key (ident +:+ w1 +:+ String ":" (w2 +:+ payload))
  = values ← mapM (parseValue parse) (split "|" payload);
    Return (Property key ident values []).
Proof.
  intros Hid Hw1 Hw2 Hp. unfold createSnippet.
  rewrite exec_value by done.
  destruct (re_value_is_Some w2 payload Hw2 Hp) as [v Hv]. rewrite Hv. cbn.
  apply re_value_Some in Hv as (w & Hv & Hw & _).
  rewrite <-(parse_alternatives_spaces w2 payload), Hv by done.
  by rewrite parse_alternatives_spaces.
Qed.

Lemma exec_group1 s m : exec s = Some m → is_ident (group1 m).
Proof.
  unfold exec. destruct (span_spec is_ident_char s) as (_ & Hid & _).
  destruct (span is_ident_char s) as [ident rest]. cbn in Hid.
  destruct ident as [|c ident]; [done|].
  destruct (re_tail rest); [|done]. by intros [= <-].
Qed.

(** The Property snippets [createSnippet] returns: under the key given,
    named by an identifier of [reProperty], without dependencies. *)
Lemma createSnippet_property key value k p values d :
  createSnippet parse key value = Return (Property k p values d) →
  k = key ∧ is_ident p ∧ d = [].
Proof.
  unfold createSnippet. destruct (exec value) as [m|] eqn:Hm; [|done].
  apply exec_group1 in Hm. destruct (group2 m) as [m2|]; [|done].
  destruct (mapM _ _); [|done]. cbn. by intros [= <- <- <- <-].
Qed.

Lemma createSnippet_ident_throws key ident :
  is_ident ident → createSnippet parse key ident = Throw TypeError.
Proof. intros Hid. unfold createSnippet. by rewrite exec_ident. Qed.
End BuilderFacts.

(** C2, at the input where the code fails: a definition that is an
    identifier and nothing more matches [reProperty] with its second group
    undefined, and [createSnippet] throws a TypeError instead of returning a
    Property, whatever the parser. *)
Theorem createSnippet_identifier_only
    (parse : string → ParseOptions → option (list CSSProperty)) (key : string) :
  matches_reProperty "background"
  ∧ Re.exec "background" = Some (Re.MkMatch "background" None)
  ∧ createSnippet parse key "background" = Throw TypeError.
Proof.
  split_and!; [|done..].
  exists "background". split; [done|by left].
Qed.

(** C8: a definition that does not match [reProperty] gives a Raw snippet
    with the definition as its value, and nothing is thrown, whatever the
    parser. *)
Theorem createSnippet_free_text
    (parse : string → ParseOptions → option (list CSSProperty))
    (key value : string) :
  ¬ matches_reProperty value →
  createSnippet parse key value = Return (Raw key value).
Proof.
  intros Hno. unfold createSnippet.
  destruct (Re.exec value) as [m|] eqn:Hm; [|done].
  destruct Hno. apply exec_is_Some. by exists m.
Qed.

(** ** Properties of [getKeywords] *)

Section Keywords.
Implicit Types (h : gmap loc CSSSnippet) (stack : list loc) (acc : seen).

Lemma foldl_see_keyword i acc kws :
  foldl (see_keyword i) acc kws
  = foldl see acc ((λ kw, MkKeywordRef kw i) <$> kws).
Proof.
  revert acc. induction kws as [|kw kws IH]; intros acc; [done|].
  cbn. apply IH.
Qed.

Lemma scan_values_entries i value acc :
  scan_values i value acc = foldl see acc (value_entries i value).
Proof.
  revert i acc. induction value as [|alt value IH]; intros i acc; [done|].
  cbn [scan_values]. rewrite IH, foldl_see_keyword.
  unfold value_entries. rewrite imap_cons. cbn [concat].
  rewrite foldl_app. rewrite Nat.add_0_r. do 2 f_equal.
  apply imap_ext. intros j x _. cbn. f_equal. lia.
Qed.

Lemma coherent_see acc e : coherent acc → coherent (see acc e).
Proof.
  intros [Hl Hn]. unfold see, see_keyword.
  destruct (decide _) as [Hin|Hin]; [done|].
  split; cbn.
  - intros kw. rewrite fmap_app, elem_of_app, elem_of_union, Hl. cbn.
    rewrite list_elem_of_singleton, elem_of_singleton. done.
  - rewrite fmap_app. apply NoDup_app. split_and!; [done| |apply NoDup_singleton].
    intros kw Hkw. cbn. rewrite list_elem_of_singleton. intros ->.
    apply Hin, Hl, Hkw.
Qed.

Lemma coherent_foldl acc es : coherent acc → coherent (foldl see acc es).
Proof.
  revert acc. induction es as [|e es IH]; intros acc H; [done|].
  cbn. apply IH, coherent_see, H.
Qed.

Lemma coherent_empty : coherent ([], ∅).
Proof. split; cbn; [set_solver|constructor]. Qed.

Lemma foldl_see_keywords acc es kw :
  coherent acc →
  kw ∈ keyword <$> (foldl see acc es).1
  ↔ kw ∈ keyword <$> acc.1 ∨ kw ∈ keyword <$> es.
Proof.
  revert acc. induction es as [|e es IH]; intros acc Hc; cbn [foldl].
  { rewrite fmap_nil, elem_of_nil. tauto. }
  rewrite IH by by apply coherent_see. rewrite fmap_cons, elem_of_cons.
  unfold see, see_keyword. destruct Hc as [Hl _].
  destruct (decide _) as [Hin|Hin]; cbn [fst].
  - apply Hl in Hin. split; [tauto|]. intros [?|[->|?]]; tauto.
  - rewrite fmap_app, elem_of_app. cbn. rewrite list_elem_of_singleton. tauto.
Qed.

(** What [result] holds after a run over the entries [es]: for every
    keyword, its first entry. *)
Lemma foldl_see_first es e :
  e ∈ (foldl see ([], ∅) es).1 →
  ∃ es1 es2, es = es1 ++ e :: es2 ∧ keyword e ∉ keyword <$> es1.
Proof.
  induction es as [|x es IH] using rev_ind; [cbn; by intros ?%elem_of_nil|].
  rewrite foldl_app. cbn [foldl].
  assert (Hc := coherent_foldl ([], ∅) es coherent_empty).
  unfold see at 1, see_keyword.
  destruct (decide _) as [Hin|Hin].
  - intros (es1 & es2 & -> & Hn)%IH. exists es1, (es2 ++ [x]).
    by rewrite <-app_assoc.
  - cbn [fst]. rewrite elem_of_app, list_elem_of_singleton.
    intros [(es1 & es2 & -> & Hn)%IH | ->].
    + exists es1, (es2 ++ [x]). by rewrite <-app_assoc.
    + destruct x as [k i]. exists es, []. split; [done|]. intros Hkw. apply Hin, Hc.
      apply foldl_see_keywords; [apply coherent_empty|]. by right.
Qed.

Lemma push_dependencies_spec stack d :
  ∃ ext, foldl push_dependency stack d = stack ++ ext
    ∧ (∀ x, x ∈ ext → x ∈ d)
    ∧ (∀ x, x ∈ d → x ∈ stack ++ ext)
    ∧ (NoDup stack → NoDup (stack ++ ext)).
Proof.
  revert stack. induction d as [|dep d IH]; intros stack; cbn [foldl].
  { exists []. rewrite app_nil_r. split_and!; try done.
    intros x []%elem_of_nil. }
  destruct (IH (push_dependency stack dep)) as (ext & -> & H1 & H2 & H3).
  unfold push_dependency in *. destruct (decide (dep ∈ stack)) as [Hin|Hin].
  - exists ext. split_and!; [done|set_solver|set_solver|done].
  - exists (dep :: ext).
    assert ((stack ++ [dep]) ++ ext = stack ++ dep :: ext) as <-
      by by rewrite <-app_assoc.
    split_and!; [done|set_solver|set_solver|].
    intros Hn. apply H3.
    apply NoDup_app. split_and!; [done|set_solver|apply NoDup_singleton].
Qed.

Lemma scan_inv_step h root i stack acc item k p v d :
  closed h →
  scan_inv h root i stack acc →
  stack !! i = Some item →
  h !! item = Some (Property k p v d) →
  scan_inv h root (S i) (foldl push_dependency stack d)
    (scan_values 0 v acc).
Proof.
  intros Hcl (Hi & Hnd & Hroot & Hreach & Hdone & Hacc) Hitem Hobj.
  destruct (push_dependencies_spec stack d) as (ext & -> & H1 & H2 & H3).
  assert (i < length stack) as Hlt by eauto using lookup_lt_Some.
  split_and!.
  - rewrite length_app. lia.
  - auto.
  - set_solver.
  - intros x [Hx|Hx]%elem_of_app; [auto|].
    assert (edge h item x) as He by (exists k, p, v, d; auto).
    split; [|by eapply Hcl].
    eapply rtc_r; [|done]. apply Hreach. by eapply list_elem_of_lookup_2.
  - intros j x y Hj Hx He.
    destruct (decide (j = i)) as [->|Hne].
    + rewrite lookup_app_l in Hx by done. simplify_eq.
      destruct He as (?&?&?&?&?&?). simplify_eq. auto.
    + rewrite lookup_app_l in Hx by lia.
      apply elem_of_app. left. eapply Hdone; [|done..]. lia.
  - rewrite scan_values_entries, Hacc, <-foldl_app. f_equal.
    rewrite take_app_le by lia.
    rewrite (take_S_r _ _ _ Hitem), fmap_app, concat_app. cbn.
    rewrite app_nil_r. f_equal. unfold node_entries. by rewrite Hobj.
Qed.

Lemma stack_bounded h stack :
  NoDup stack → (∀ x, x ∈ stack → is_Some (h !! x)) → length stack ≤ size h.
Proof.
  intros Hnd Hin. rewrite <-size_dom, <-(size_list_to_set (C:=gset loc)) by done.
  apply subseteq_size. intros x Hx%elem_of_list_to_set.
  by apply elem_of_dom, Hin.
Qed.

(** The loop returns when it is given as many units of fuel as the store
    has objects not yet visited, and the invariant holds on return. *)
Lemma scan_loop_returns h root fuel i stack acc :
  closed h →
  scan_inv h root i stack acc →
  size h ≤ fuel + i →
  ∃ stack' acc',
    scan_loop fuel h i stack acc = Some (stack', acc'.1)
    ∧ scan_inv h root (length stack') stack' acc'.
Proof.
  intros Hcl. revert i stack acc.
  induction fuel as [|fuel IH]; intros i stack acc Hinv Hfuel.
  - assert (length stack ≤ size h) as Hb.
    { destruct Hinv as (_ & Hnd & _ & Hr & _).
      apply stack_bounded; [done|]. intros x (_ & ? & ? & ? & ? & ->)%Hr. eauto. }
    assert (i = length stack) as -> by (destruct Hinv as [? _]; lia).
    cbn. rewrite lookup_ge_None_2 by done. eauto.
  - cbn [scan_loop]. destruct (stack !! i) as [item|] eqn:Hitem.
    + pose proof Hinv as (Hi & Hnd & Hroot & Hr & Hrest).
      destruct (Hr item) as (_ & k & p & v & d & Hobj);
        [by eapply list_elem_of_lookup_2|].
      rewrite Hobj. apply IH; [|lia].
      by eapply scan_inv_step.
    + exists stack, acc. split; [done|].
      apply lookup_ge_None in Hitem.
      assert (i = length stack) as -> by (destruct Hinv as [? _]; lia).
      done.
Qed.

Lemma elem_of_concat {A} (x : A) (ls : list (list A)) :
  x ∈ concat ls ↔ ∃ l, l ∈ ls ∧ x ∈ l.
Proof.
  induction ls as [|l ls IH]; cbn.
  - split; [intros []%elem_of_nil|intros (? & []%elem_of_nil & _)].
  - rewrite elem_of_app, IH. split.
    + intros [?|(l' & ? & ?)]; [exists l|exists l']; split; auto; by constructor.
    + intros (l' & [->|?]%elem_of_cons & ?); eauto.
Qed.

(** An element of a concatenation lies in one of the lists, after all the
    lists before that one. *)
Lemma concat_split {A} (ls : list (list A)) (xs1 xs2 : list A) (x : A) :
  concat ls = xs1 ++ x :: xs2 →
  ∃ ls1 l ls2 l1 l2,
    ls = ls1 ++ l :: ls2 ∧ l = l1 ++ x :: l2 ∧ xs1 = concat ls1 ++ l1.
Proof.
  revert xs1. induction ls as [|l ls IH]; intros xs1; cbn.
  { intros H. by destruct xs1. }
  intros [(k & -> & Hk)|(k & -> & Hk)]%app_eq_inv.
  - destruct k as [|y k]; cbn in Hk.
    + symmetry in Hk.
      destruct (IH [] Hk) as (ls1 & l' & ls2 & l1 & l2 & -> & -> & Hx).
      exists ((xs1 ++ []) :: ls1), (l1 ++ x :: l2), ls2, l1, l2.
      split_and!; [done..|]. cbn. rewrite <-app_assoc, <-Hx. by rewrite !app_nil_r.
    + injection Hk as <- ->.
      by exists [], (xs1 ++ x :: k), ls, xs1, k.
  - destruct (IH k Hk) as (ls1 & l' & ls2 & l1 & l2 & -> & -> & ->).
    exists (l :: ls1), (l1 ++ x :: l2), ls2, l1, l2.
    split_and!; [done..|]. cbn. by rewrite <-app_assoc.
Qed.

Lemma alt_entries_keywords i alt :
  keyword <$> alt_entries i alt = keywordsFromValue alt.
Proof.
  unfold alt_entries. rewrite <-list_fmap_compose. apply list_fmap_id.
Qed.

Lemma value_entries_keywords i value :
  keyword <$> value_entries i value = concat (keywordsFromValue <$> value).
Proof.
  revert i. induction value as [|alt value IH]; intros i; [done|].
  unfold value_entries. rewrite imap_cons. cbn.
  rewrite fmap_app, alt_entries_keywords. f_equal.
  rewrite <-(IH (S i)). unfold value_entries. do 2 f_equal.
  apply imap_ext. intros j x _. cbn. f_equal. lia.
Qed.

Lemma node_entries_keywords h r :
  keyword <$> node_entries h r = node_keywords h r.
Proof.
  unfold node_entries, node_keywords.
  destruct (h !! r) as [[]|]; [done| |done]. apply value_entries_keywords.
Qed.

(** [getKeywords] returns on every closed store; it visits the Property
    nodes reachable from [snippet], each once, and [result] takes the
    entries of the visited nodes in order, the first entry of every
    keyword. *)
Lemma getKeywords_visit_spec h snippet :
  closed h → is_Some (h !! snippet) →
  ∃ visited res,
    getKeywords_visit h snippet = Some (visited, res)
    ∧ NoDup visited
    ∧ (∀ x, x ∈ visited ↔ reachable h snippet x ∧ is_property_at h x)
    ∧ res = (foldl see ([], ∅) (concat (node_entries h <$> visited))).1.
Proof.
  intros Hcl [s Hs]. unfold getKeywords_visit. rewrite Hs. cbn.
  destruct s as [k v|k p v d]; cbn [isProperty].
  - exists [], []. split_and!; [by destruct (size h)|constructor| |done].
    intros x. split; [intros []%elem_of_nil|].
    intros [Hr (? & ? & ? & ? & Hx)].
    destruct Hr as [|a b c (?&?&?&?&?&?) _]; congruence.
  - destruct (scan_loop_returns h snippet (size h) 0 [snippet] ([], ∅))
      as (visited & acc' & -> & Hinv); [done| |lia|].
    { split_and!; cbn; [lia|apply NoDup_singleton|by constructor| |lia|done].
      intros x ->%list_elem_of_singleton. split; [done|]. by exists k, p, v, d. }
    destruct Hinv as (_ & Hnd & Hroot & Hreach & Hdone & ->).
    exists visited, (foldl see ([], ∅)
      (concat (node_entries h <$> take (length visited) visited))).1.
    rewrite firstn_all. split_and!; [done..| |done].
    intros x. split; [by intros ?%Hreach|]. intros [Hr _].
    revert x Hr. apply (rtc_ind_r (λ x, x ∈ visited)); [done|].
    intros y z _ Hyz IH.
    apply list_elem_of_lookup in IH as [j Hj].
    eapply Hdone; [|done..]. by eapply lookup_lt_Some.
Qed.

Lemma scan_loop_fuel h fuel fuel' i stack acc out :
  scan_loop fuel h i stack acc = Some out → fuel ≤ fuel' →
  scan_loop fuel' h i stack acc = Some out.
Proof.
  revert fuel' i stack acc.
  induction fuel as [|fuel IH]; intros fuel' i stack acc; cbn.
  - destruct (stack !! i) eqn:Hi; [done|]. intros ? _.
    destruct fuel'; cbn; by rewrite Hi.
  - destruct (stack !! i) as [item|] eqn:Hi.
    + destruct fuel' as [|fuel']; [lia|]. cbn. rewrite Hi.
      destruct (h !! item) as [[]|]; try done. intros ? ?. apply IH; [done|lia].
    + intros ? _. destruct fuel'; cbn; by rewrite Hi.
Qed.

(** The loop reads the store only at the nodes it visits. *)
Lemma scan_loop_agree (S : loc → Prop) h1 h2 fuel i stack acc :
  (∀ x y, S x → edge h1 x y → S y) →
  (∀ x, S x → h2 !! x = h1 !! x) →
  (∀ x, x ∈ stack → S x) →
  scan_loop fuel h2 i stack acc = scan_loop fuel h1 i stack acc.
Proof.
  intros Hedge Hsame. revert i stack acc.
  induction fuel as [|fuel IH]; intros i stack acc Hstack; [done|].
  cbn. destruct (stack !! i) as [item|] eqn:Hi; [|done].
  assert (S item) as Hitem by by eapply Hstack, list_elem_of_lookup_2.
  rewrite (Hsame _ Hitem).
  destruct (h1 !! item) as [[k v|k p v d]|] eqn:Hobj; try done.
  apply IH. intros x.
  destruct (push_dependencies_spec stack d) as (ext & -> & H1 & _).
  intros [?|Hx%H1]%elem_of_app; [auto|].
  apply (Hedge item); [done|]. by exists k, p, v, d.
Qed.
End Keywords.

(** [keywordsFromValue] against the words of the specification: it returns
    the texts of the Literal nodes and the names of the FunctionCall nodes of
    the alternative, and nothing else. *)
Lemma keywordsFromValue_holds (alt : list CSSValue) (kw : string) :
  kw ∈ keywordsFromValue alt ↔ alternative_holds alt kw.
Proof.
  unfold keywordsFromValue, alternative_holds. rewrite list_elem_of_bind.
  split.
  - intros (v & (n & Hkw & Hn)%list_elem_of_bind & Hv). exists v, n.
    split_and!; [done..|].
    destruct n; [apply list_elem_of_singleton in Hkw as ->; constructor..|].
    by apply elem_of_nil in Hkw.
  - intros (v & n & Hv & Hn & Hc). exists v. split; [|done].
    apply list_elem_of_bind. exists n. split; [|done].
    destruct Hc; by apply list_elem_of_singleton.
Qed.

Lemma node_keywords_holds (h : gmap loc CSSSnippet) (r : loc) (kw : string) :
  kw ∈ node_keywords h r ↔ snippet_holds h r kw.
Proof.
  unfold node_keywords, snippet_holds. split.
  - destruct (h !! r) as [[k v|k p value d]|]; [by intros ?%elem_of_nil| |
      by intros ?%elem_of_nil].
    intros (l & (alt & -> & Halt)%list_elem_of_fmap & Hkw)%elem_of_concat.
    exists k, p, value, d, alt. split_and!; [done..|].
    by apply keywordsFromValue_holds.
  - intros (k & p & value & d & alt & -> & Halt & Hkw).
    apply elem_of_concat. exists (keywordsFromValue alt).
    split; [by apply list_elem_of_fmap_2|]. by apply keywordsFromValue_holds.
Qed.

(** C3: on a store whose dependency graph may hold cycles, [getKeywords]
    returns, and its result is the union of the keywords of the nodes
    reachable from the snippet, each keyword once: a keyword is in the result
    if and only if a reachable node has an alternative with a Literal of that
    text or a FunctionCall of that name. *)
Theorem getKeywords_cycle_safe (h : gmap loc CSSSnippet) (snippet : loc) :
  closed h → is_Some (h !! snippet) →
  ∃ res,
    getKeywords h snippet = Some res
    ∧ NoDup (keyword <$> res)
    ∧ ∀ kw, kw ∈ keyword <$> res
            ↔ ∃ r, reachable h snippet r ∧ snippet_holds h r kw.
Proof.
  intros Hcl Hs.
  destruct (getKeywords_visit_spec h snippet Hcl Hs)
    as (visited & res & Hrun & Hnd & Hvis & Hres).
  exists res. unfold getKeywords. rewrite Hrun. split; [done|].
  assert (Hc := coherent_foldl ([], ∅) (concat (node_entries h <$> visited))
                  coherent_empty).
  subst res. split; [apply Hc|]. intros kw.
  rewrite foldl_see_keywords by apply coherent_empty. cbn.
  rewrite elem_of_nil, list_elem_of_fmap. split.
  - intros [[]|(e & -> & (l & (r & -> & Hr)%list_elem_of_fmap & He)%elem_of_concat)].
    exists r. split; [by apply Hvis|]. apply node_keywords_holds.
    rewrite <-node_entries_keywords. by apply list_elem_of_fmap_2.
  - intros (r & Hr & Hkw). right. apply node_keywords_holds in Hkw.
    rewrite <-node_entries_keywords in Hkw.
    apply list_elem_of_fmap in Hkw as (e & -> & He). exists e. split; [done|].
    apply elem_of_concat. exists (node_entries h r). split; [|done].
    apply list_elem_of_fmap_2, Hvis. split; [done|].
    unfold node_entries in He. destruct (h !! r) as [[]|] eqn:Hobj;
      try by apply elem_of_nil in He.
    by repeat eexists.
Qed.

(** C4: the result of [getKeywords] has no two entries with the same keyword,
    and the index of an entry is the position of the alternative that holds
    the keyword in the node where the traversal first met it: no earlier
    node of the visit, and no earlier alternative of that node, holds the
    keyword. *)
Theorem getKeywords_first_seen (h : gmap loc CSSSnippet) (snippet : loc) :
  closed h → is_Some (h !! snippet) →
  ∃ visited res,
    getKeywords_visit h snippet = Some (visited, res)
    ∧ getKeywords h snippet = Some res
    ∧ NoDup (keyword <$> res)
    ∧ ∀ e, e ∈ res →
        ∃ j node k p value d alt,
          visited !! j = Some node
          ∧ h !! node = Some (Property k p value d)
          ∧ value !! index e = Some alt
          ∧ keyword e ∈ keywordsFromValue alt
          ∧ (∀ i' alt', i' < index e → value !! i' = Some alt' →
               keyword e ∉ keywordsFromValue alt')
          ∧ (∀ j' node', j' < j → visited !! j' = Some node' →
               keyword e ∉ node_keywords h node').
Proof.
  intros Hcl Hs.
  destruct (getKeywords_visit_spec h snippet Hcl Hs)
    as (visited & res & Hrun & Hnd & Hvis & Hres).
  exists visited, res. unfold getKeywords. rewrite Hrun.
  split_and!; [done..| |].
  { subst res. apply (coherent_foldl ([], ∅)), coherent_empty. }
  intros e He. subst res.
  apply foldl_see_first in He as (es1 & es2 & Hes & Hfirst).
  apply concat_split in Hes as (ns1 & es & ns2 & t1 & t2 & Hns & -> & ->).
  assert ((node_entries h <$> visited) !! length ns1
          = Some (t1 ++ e :: t2)) as Hj.
  { rewrite Hns. by apply list_lookup_middle. }
  rewrite list_lookup_fmap in Hj.
  destruct (visited !! length ns1) as [node|] eqn:Hnode; [|done].
  injection Hj as Hentries.
  destruct (Hvis node) as [(_ & k & p & value & d & Hobj) _];
    [by eapply list_elem_of_lookup_2|].
  unfold node_entries in Hentries. rewrite Hobj in Hentries.
  apply concat_split in Hentries as (as1 & a & as2 & u1 & u2 & Has & -> & ->).
  assert (imap (λ i, alt_entries (0 + i)) value !! length as1
          = Some (u1 ++ e :: u2)) as Hi.
  { rewrite Has. by apply list_lookup_middle. }
  apply list_lookup_imap_Some in Hi as (alt & Halt & Hentry).
  assert (e ∈ alt_entries (length as1) alt) as Hin.
  { cbn in Hentry. rewrite <-Hentry. apply elem_of_app. right. by left. }
  apply list_elem_of_fmap in Hin as (kw & -> & Hkw). cbn [index keyword] in *.
  exists (length ns1), node, k, p, value, d, alt.
  split_and!; [done..| |].
  - intros i' alt' Hlt Halt' Hkw'. apply Hfirst.
    rewrite !fmap_app, !elem_of_app. right. left.
    apply (list_elem_of_fmap_2 keyword _ (MkKeywordRef kw i')).
    apply elem_of_concat. exists (alt_entries i' alt'). split.
    + assert (imap (λ i, alt_entries (0 + i)) value !! i'
              = Some (alt_entries i' alt')) as Hl.
      { by rewrite list_lookup_imap, Halt'. }
      rewrite Has, lookup_app_l in Hl by done.
      by eapply list_elem_of_lookup_2.
    + by apply (list_elem_of_fmap_2 (λ kw, MkKeywordRef kw i') _ kw).
  - intros j' node' Hlt Hnode' Hkw'. apply Hfirst.
    rewrite !fmap_app, !elem_of_app. left.
    rewrite <-node_entries_keywords in Hkw'.
    apply list_elem_of_fmap in Hkw' as (e' & He' & Hin').
    rewrite He'. apply list_elem_of_fmap_2.
    apply elem_of_concat. exists (node_entries h node'). split; [|done].
    assert ((node_entries h <$> visited) !! j'
            = Some (node_entries h node')) as Hl.
    { by rewrite list_lookup_fmap, Hnode'. }
    rewrite Hns, lookup_app_l in Hl by done.
    by eapply list_elem_of_lookup_2.
Qed.

(** C9: [getKeywords] reads the store and writes nothing; a second call, in a
    store where the snippet and what it reaches hold what they held at the
    first call, returns the sequence the first call returned. *)
Theorem getKeywords_deterministic (h1 h2 : gmap loc CSSSnippet)
    (snippet : loc) :
  closed h1 → closed h2 → is_Some (h1 !! snippet) →
  (∀ r, reachable h1 snippet r → h2 !! r = h1 !! r) →
  ∃ res, getKeywords h1 snippet = Some res ∧ getKeywords h2 snippet = Some res.
Proof.
  intros Hcl1 Hcl2 Hs Hsame.
  assert (h2 !! snippet = h1 !! snippet) as Hroot by by apply Hsame.
  destruct (getKeywords_visit_spec h1 snippet Hcl1 Hs)
    as (v1 & res1 & Hrun1 & _).
  destruct (getKeywords_visit_spec h2 snippet Hcl2)
    as (v2 & res2 & Hrun2 & _); [by rewrite Hroot|].
  exists res1. unfold getKeywords. rewrite Hrun1, Hrun2. split; [done|].
  unfold getKeywords_visit in *. rewrite Hroot in Hrun2.
  destruct Hs as [s Hs]. rewrite Hs in *. cbn in *.
  set (stack := if isProperty s then [snippet] else []) in *.
  apply (scan_loop_fuel _ _ (size h1 `max` size h2)) in Hrun1; [|lia].
  apply (scan_loop_fuel _ _ (size h1 `max` size h2)) in Hrun2; [|lia].
  rewrite (scan_loop_agree (reachable h1 snippet) h1 h2) in Hrun2.
  - congruence.
  - intros x y Hx Hxy. by eapply rtc_r.
  - done.
  - intros x Hx. subst stack. destruct (isProperty s).
    + by apply list_elem_of_singleton in Hx as ->.
    + by apply elem_of_nil in Hx.
Qed.

(** ** [Array.prototype.sort] *)

Section SortFacts.
Context {A : Type} (comparefn : A → A → Z).

Lemma sort_insert_perm x l : sort_insert comparefn x l ≡ₚ x :: l.
Proof.
  induction l as [|y l IH]; [done|]. cbn.
  destruct (_ <=? _)%Z; [done|]. rewrite IH. apply perm_swap.
Qed.

Lemma array_sort_perm l : array_sort comparefn l ≡ₚ l.
Proof.
  induction l as [|x l IH]; [done|]. cbn.
  by rewrite sort_insert_perm, IH.
Qed.

Hypothesis total : ∀ x y, sorts_before comparefn x y ∨ sorts_before comparefn y x.
Hypothesis trans : ∀ x y z,
  sorts_before comparefn x y → sorts_before comparefn y z → sorts_before comparefn x z.

Lemma sort_insert_sorted x l :
  StronglySorted (sorts_before comparefn) l →
  StronglySorted (sorts_before comparefn) (sort_insert comparefn x l).
Proof.
  induction 1 as [|y l Hl IH Hy]; cbn.
  { repeat constructor. }
  destruct (Z.leb_spec (comparefn x y) 0) as [Hxy|Hxy].
  - constructor; [by constructor|]. constructor; [done|].
    eapply Forall_impl; [done|]. intros z ?. by eapply trans.
  - constructor; [done|]. rewrite sort_insert_perm. constructor; [|done].
    destruct (total x y) as [H|H]; [|done]. unfold sorts_before in H. lia.
Qed.

Lemma array_sort_sorted l :
  StronglySorted (sorts_before comparefn) (array_sort comparefn l).
Proof.
  induction l as [|x l IH]; cbn; [constructor|]. by apply sort_insert_sorted.
Qed.
End SortFacts.

Lemma snippetsSort_le a b :
  sorts_before snippetsSort a b ↔ key_le (key a) (key b).
Proof.
  unfold sorts_before, snippetsSort, key_le.
  destruct (String.eqb_spec (key a) (key b)) as [->|Hne]; [by intuition|].
  destruct (JsString.lt (key a) (key b)); split; try done; try lia.
  by intros [?|?].
Qed.

Lemma sorted_by_key (items : list (loc * CSSSnippet)) :
  StronglySorted (λ x y, key_le (key x.2) (key y.2))
    (array_sort (λ x y, snippetsSort x.2 y.2) items).
Proof.
  rewrite <-(list_fmap_id (array_sort _ items)).
  eapply StronglySorted_fmap; [|apply array_sort_sorted].
  - intros x y. apply (snippetsSort_le x.2 y.2).
  - intros x y.
    destruct (key_le_total (key x.2) (key y.2)); [left|right];
      by apply (snippetsSort_le _ _).
  - intros x y z Hxy%(snippetsSort_le x.2 y.2) Hyz%(snippetsSort_le y.2 z.2).
    apply (snippetsSort_le x.2 z.2). by eapply key_le_trans.
Qed.

(** ** Stores under [nest] *)

Section NestFacts.
Implicit Types (h : gmap loc CSSSnippet) (stack : list loc).

Lemma pname_Some h r p :
  pname h r = Some p ↔ ∃ k v d, h !! r = Some (Property k p v d).
Proof.
  unfold pname. destruct (h !! r) as [[]|]; split;
    try done; try by intros (? & ? & ? & ?).
  - intros [= ->]. eauto.
  - by intros (? & ? & ? & [= -> -> -> ->]).
Qed.

Lemma is_property_at_pname h r : is_property_at h r ↔ is_Some (pname h r).
Proof.
  split.
  - intros (k & p & v & d & H). exists p. apply pname_Some. eauto.
  - intros [p (k & v & d & H)%pname_Some]. by exists k, p, v, d.
Qed.

Lemma nested_from_refl h : nested_from h h.
Proof.
  intros r. destruct (h !! r) as [[k v|k p v d]|]; try done.
  exists []. rewrite app_nil_r. split; [done|]. by intros c ?%elem_of_nil.
Qed.

Lemma nested_from_pname h h' r : nested_from h h' → pname h' r = pname h r.
Proof.
  intros H. specialize (H r). unfold pname.
  destruct (h !! r) as [[k v|k p v d]|].
  - by rewrite H.
  - destruct H as (added & -> & _). done.
  - by rewrite H.
Qed.

Lemma nested_from_trans h1 h2 h3 :
  nested_from h1 h2 → nested_from h2 h3 → nested_from h1 h3.
Proof.
  intros H H23 r. pose proof (H r) as H12. specialize (H23 r).
  destruct (h1 !! r) as [[k v|k p v d]|].
  - by rewrite H12 in H23.
  - destruct H12 as (add1 & H12 & Hadd1). rewrite H12 in H23.
    destruct H23 as (add2 & H23 & Hadd2).
    exists (add1 ++ add2). rewrite H23, <-app_assoc. split; [done|].
    intros c [?|Hc]%elem_of_app; [auto|].
    destruct (Hadd2 c Hc) as (pc & Hpc & ?). exists pc.
    by rewrite <-(nested_from_pname h1 h2).
  - by rewrite H12 in H23.
Qed.

Lemma nested_from_edge h h' a b : nested_from h h' → edge h a b → edge h' a b.
Proof.
  intros H (k & p & v & d & Ha & Hb). specialize (H a). rewrite Ha in H.
  destruct H as (added & H & _). exists k, p, v, (d ++ added).
  split; [done|]. apply elem_of_app. by left.
Qed.

Lemma nested_from_reachable h h' a b :
  nested_from h h' → reachable h a b → reachable h' a b.
Proof.
  intros H. induction 1 as [|x y z Hxy _ IH]; [done|].
  eapply rtc_l; [|done]. by eapply nested_from_edge.
Qed.

Lemma nested_from_chain h h' stack :
  nested_from h h' → chain h stack → chain h' stack.
Proof.
  intros H. induction stack as [|x [|y stack] IH]; try done.
  intros [He Hc]. split; [by eapply nested_from_edge|by apply IH].
Qed.

Lemma chain_app h above stack : chain h (above ++ stack) → chain h stack.
Proof.
  induction above as [|x above IH]; [done|]. cbn [app chain].
  destruct (above ++ stack) eqn:E; [|intros [_ ?]; by apply IH].
  by destruct above, stack.
Qed.

Lemma chain_reachable h x stack a :
  chain h (x :: stack) → a ∈ x :: stack → reachable h a x.
Proof.
  revert x. induction stack as [|y stack IH]; intros x.
  - by intros _ ->%list_elem_of_singleton.
  - intros [He Hc] [->|Ha]%elem_of_cons; [done|].
    eapply rtc_r; [by apply IH|done].
Qed.

(** One more element in the [dependencies] of [prev]. *)
Lemma nested_from_push h prev cur k p v d pc :
  h !! prev = Some (Property k p v d) →
  pname h cur = Some pc → is_longhand_of pc p = true →
  nested_from h (<[prev := Property k p v (d ++ [cur])]> h).
Proof.
  intros Hprev Hcur Hlong r. destruct (decide (r = prev)) as [->|Hne].
  - rewrite Hprev, lookup_insert_eq. exists [cur]. split; [done|].
    intros c ->%list_elem_of_singleton. eauto.
  - rewrite lookup_insert_ne by done.
    destruct (h !! r) as [[]|] eqn:E; try done.
    exists []. rewrite app_nil_r. split; [done|]. by intros c ?%elem_of_nil.
Qed.

(** The two ways [nest_place] ends: under the first element of the stack
    that passes the test, or as a root when none does. *)
Lemma nest_place_spec h cur p stack :
  (∀ x, x ∈ stack → is_property_at h x) →
  (∃ above prev below k pp v d,
      stack = above ++ prev :: below
      ∧ (∀ x, x ∈ above →
           ∃ px, pname h x = Some px ∧ is_longhand_of p px = false)
      ∧ h !! prev = Some (Property k pp v d)
      ∧ is_longhand_of p pp = true
      ∧ nest_place h cur p stack
        = Some (<[prev := Property k pp v (d ++ [cur])]> h,
                cur :: prev :: below))
  ∨ ((∀ x, x ∈ stack →
        ∃ px, pname h x = Some px ∧ is_longhand_of p px = false)
     ∧ nest_place h cur p stack = Some (h, [cur])).
Proof.
  induction stack as [|prev below IH]; intros Hstack.
  { right. split; [by intros x ?%elem_of_nil|done]. }
  destruct (Hstack prev) as (k & pp & v & d & Hprev); [by left|].
  cbn [nest_place]. rewrite Hprev.
  destruct (is_longhand_of p pp) eqn:Htest.
  - left. exists [], prev, below, k, pp, v, d.
    split_and!; try done. by intros x ?%elem_of_nil.
  - assert (pname h prev = Some pp) as Hname by (apply pname_Some; eauto).
    destruct IH as [(above & prev' & below' & k' & pp' & v' & d'
                     & -> & Habove & ? & ? & ->)|[Hall ->]].
    + intros x ?. apply Hstack. by right.
    + left. exists (prev :: above), prev', below', k', pp', v', d'.
      split_and!; try done. intros x [->|?]%elem_of_cons; eauto.
    + right. split; [|done]. intros x [->|?]%elem_of_cons; eauto.
Qed.

Lemma nested_from_property h h' r :
  nested_from h h' → is_property_at h r → is_property_at h' r.
Proof.
  rewrite !is_property_at_pname. intros H. by rewrite (nested_from_pname h h').
Qed.

(** One [cur] of the loop of [nest]. *)
Lemma nest_place_nested h cur p stack :
  pname h cur = Some p →
  (∀ x, x ∈ stack → is_property_at h x) →
  ∃ h' stack',
    nest_place h cur p stack = Some (h', stack')
    ∧ nested_from h h'
    ∧ ∀ x, x ∈ stack' → x = cur ∨ x ∈ stack.
Proof.
  intros Hcur Hstack.
  destruct (nest_place_spec h cur p stack Hstack)
    as [(above & prev & below & k & pp & v & d & -> & _ & Hprev & Htest & ->)
       |[_ ->]].
  - eexists _, _. split_and!; [done|by eapply nested_from_push|].
    intros x [->|Hx]%elem_of_cons; [by left|right].
    apply elem_of_app. by right.
  - eexists _, _. split_and!; [done|apply nested_from_refl|].
    intros x ->%list_elem_of_singleton. by left.
Qed.

(** The loop of [nest] runs to its end on Property snippets, and only
    appends longhands to [dependencies] arrays. *)
Lemma nest_loop_nested props h stack :
  (∀ r, r ∈ props → is_property_at h r) →
  (∀ x, x ∈ stack → is_property_at h x) →
  ∃ h' stack', nest_loop props h stack = Some (h', stack') ∧ nested_from h h'.
Proof.
  revert h stack. induction props as [|cur rest IH]; intros h stack Hp Hs.
  { exists h, stack. split; [done|apply nested_from_refl]. }
  destruct (Hp cur) as (k & p & v & d & Hcur); [by left|].
  assert (pname h cur = Some p) as Hname by (apply pname_Some; eauto).
  destruct (nest_place_nested h cur p stack Hname Hs)
    as (h1 & stack1 & Hplace & Hn1 & Hstack1).
  destruct (IH h1 stack1) as (h' & stack' & Hloop & Hn2).
  - intros r Hr. eapply nested_from_property; [done|]. apply Hp. by right.
  - intros x [->|Hx]%Hstack1; (eapply nested_from_property; [done|]).
    + by exists k, p, v, d.
    + by apply Hs.
  - exists h', stack'. cbn [nest_loop]. rewrite Hcur, Hplace. cbn.
    split; [done|]. by eapply nested_from_trans.
Qed.

(** The loop of [nest] over names in key order, none with a character
    before the hyphen and no two objects with one name: when it ends, every
    longhand is reachable from the names it extends. *)
Lemma nest_loop_links h0 done rest h stack :
  StronglySorted (name_le h0) (done ++ rest) →
  (∀ r, r ∈ done ++ rest → ∃ p, pname h0 r = Some p ∧ hyphen_least p) →
  (∀ a b, a ∈ done ++ rest → b ∈ done ++ rest →
          pname h0 a = pname h0 b → a = b) →
  nested_from h0 h →
  chain h stack →
  (∀ x, x ∈ stack → x ∈ done) →
  (∀ a b, a ∈ done → b ∈ rest → longhand h0 a b → a ∈ stack) →
  (∀ a b, a ∈ done → b ∈ done → longhand h0 a b → reachable h a b) →
  ∃ h' stack',
    nest_loop rest h stack = Some (h', stack')
    ∧ nested_from h0 h'
    ∧ ∀ a b, a ∈ done ++ rest → b ∈ done ++ rest →
             longhand h0 a b → reachable h' a b.
Proof.
  revert done h stack.
  induction rest as [|cur rest IH];
    intros done h stack Hsorted Hnames Huniq Hn Hchain Hstack Hcover Hreach.
  { exists h, stack. rewrite app_nil_r. by split_and!. }
  destruct (Hnames cur) as (p & Hcur0 & Hleast); [set_solver|].
  assert (pname h cur = Some p) as Hcur
    by by rewrite (nested_from_pname h0 h).
  pose proof Hcur as (k & v & d & Hobj)%pname_Some.
  assert (∀ x, x ∈ stack → is_property_at h x) as Hprops.
  { intros x Hx. eapply nested_from_property; [done|].
    apply is_property_at_pname. destruct (Hnames x) as (? & -> & _); [|done].
    apply elem_of_app. left. by apply Hstack. }
  assert (∀ a, a ∈ done → name_le h0 a cur) as Hbefore.
  { intros a Ha. eapply StronglySorted_app_1_elem_of; [done..|by left]. }
  assert (∀ b, b ∈ rest → name_le h0 cur b) as Hafter.
  { intros b Hb. apply StronglySorted_app in Hsorted as (_ & _ & Hs).
    apply StronglySorted_cons in Hs as [Hs _].
    by eapply Forall_forall in Hs. }
  assert (∀ a, a ∈ done → ¬ longhand h0 cur a) as Hnot.
  { intros a Ha (pc & pa & Hpc & Hpa & [u ->]%is_longhand_of_spec).
    destruct (Hbefore a Ha) as (pa' & pc' & Hpa' & Hpc' & Hle).
    assert (pc = p) as -> by congruence.
    assert (pa' = p +:+ String "-" u) as -> by congruence.
    assert (pc' = p) as -> by congruence.
    pose proof (key_le_antisym _ _ Hle (or_intror (lt_longhand _ _))) as E.
    pose proof (lt_longhand p u) as Hlt. rewrite E in Hlt.
    by rewrite lt_irrefl in Hlt. }
  (* the elements that fail the test are not names [cur] extends *)
  assert (∀ a pa, pname h a = Some pa → is_longhand_of p pa = false →
                  ¬ longhand h0 a cur) as Hfail.
  { intros a pa Ha Htest (pa' & pc & Hpa' & Hpc & Hlong).
    rewrite (nested_from_pname h0 h) in Ha by done. congruence. }
  (* an element that fails the test and has a longhand to come is [cur] *)
  assert (∀ a b pa, a ∈ done → b ∈ rest → longhand h0 a b →
                    pname h a = Some pa → is_longhand_of p pa = false →
                    a = cur) as Hpopped.
  { intros a b pa Ha Hb (pa' & pb & Hpa' & Hpb & [u ->]%is_longhand_of_spec)
           Hpa Htest.
    rewrite (nested_from_pname h0 h) in Hpa by done.
    assert (pa' = pa) as -> by congruence.
    destruct (Hbefore a Ha) as (x1 & x2 & Hx1 & Hx2 & Hle1).
    destruct (Hafter b Hb) as (y1 & y2 & Hy1 & Hy2 & Hle2).
    assert (x1 = pa) as -> by congruence.
    assert (x2 = p) as -> by congruence.
    assert (y1 = p) as -> by congruence.
    assert (y2 = pa +:+ String "-" u) as -> by congruence.
    apply Huniq; [set_solver..|].
    destruct (between_longhand _ _ _ Hleast Hle1 Hle2) as [E|[w E]];
      [congruence|].
    assert (is_longhand_of p pa = true) as E'
      by (apply is_longhand_of_spec; eauto).
    congruence. }
  assert ((done ++ [cur]) ++ rest = done ++ cur :: rest) as Happ
    by by rewrite <-app_assoc.
  cbn [nest_loop]. rewrite Hobj.
  destruct (nest_place_spec h cur p stack Hprops)
    as [(above & prev & below & k' & pp & v' & d' & -> & Habove & Hprev
         & Htest & ->)|[Hall ->]]; cbn.
  - assert (nested_from h (<[prev:=Property k' pp v' (d' ++ [cur])]> h))
      as Hn1 by by eapply nested_from_push.
    set (h1 := <[prev:=Property k' pp v' (d' ++ [cur])]> h) in *.
    assert (edge h1 prev cur) as Hedge.
    { exists k', pp, v', (d' ++ [cur]). unfold h1.
      rewrite lookup_insert_eq. split; [done|]. set_solver. }
    destruct (IH (done ++ [cur]) h1 (cur :: prev :: below))
      as (h' & stack' & Hloop & Hn' & Hfinal); rewrite ?Happ; try done.
    + by eapply nested_from_trans.
    + split; [done|]. eapply nested_from_chain; [done|].
      by eapply chain_app.
    + intros x [->|Hx]%elem_of_cons; [set_solver|].
      apply elem_of_app. left. apply Hstack. set_solver.
    + intros a b [Ha| ->%list_elem_of_singleton]%elem_of_app Hb Hlong;
        [|by left].
      assert (a ∈ above ++ prev :: below) as [Hin|Hin]%elem_of_app
        by (eapply Hcover; [done| |done]; by right).
      * destruct (Habove a Hin) as (pa & Hpa & Hta).
        rewrite (Hpopped a b pa); [by left|done..].
      * by right.
    + intros a b [Ha| ->%list_elem_of_singleton]%elem_of_app
                 [Hb| ->%list_elem_of_singleton]%elem_of_app Hlong.
      * eapply nested_from_reachable; [done|]. by apply Hreach.
      * assert (a ∈ above ++ prev :: below) as [Hin|Hin]%elem_of_app
          by (eapply Hcover; [done|by left|done]).
        { destruct (Habove a Hin) as (pa & Hpa & Hta).
          by destruct (Hfail a pa). }
        eapply rtc_r; [|done]. eapply nested_from_reachable; [done|].
        eapply chain_reachable; [|done]. by eapply chain_app.
      * by destruct (Hnot b).
      * done.
    + exists h', stack'. rewrite Happ in Hfinal. by rewrite Hloop.
  - destruct (IH (done ++ [cur]) h [cur])
      as (h' & stack' & Hloop & Hn' & Hfinal); rewrite ?Happ; try done.
    + intros x ->%list_elem_of_singleton. set_solver.
    + intros a b [Ha| ->%list_elem_of_singleton]%elem_of_app Hb Hlong;
        [|by left].
      assert (a ∈ stack) as Hin by (eapply Hcover; [done| |done]; by right).
      destruct (Hall a Hin) as (pa & Hpa & Hta).
      rewrite (Hpopped a b pa); [by left|done..].
    + intros a b [Ha| ->%list_elem_of_singleton]%elem_of_app
                 [Hb| ->%list_elem_of_singleton]%elem_of_app Hlong.
      * by apply Hreach.
      * assert (a ∈ stack) as Hin by (eapply Hcover; [done|by left|done]).
        destruct (Hall a Hin) as (pa & Hpa & Hta). by destruct (Hfail a pa).
      * by destruct (Hnot b).
      * done.
    + exists h', stack'. rewrite Happ in Hfinal. by rewrite Hloop.
Qed.
End NestFacts.

Section SortedLists.
Context {A : Type} (R : relation A).

Lemma StronglySorted_filter (P : A → Prop) `{∀ x, Decision (P x)} l :
  StronglySorted R l → StronglySorted R (filter P l).
Proof.
  induction 1 as [|x l Hl IH Hx]; [constructor|].
  rewrite filter_cons. destruct (decide (P x)); [|done].
  constructor; [done|]. rewrite Forall_forall in *.
  intros y [_ Hy]%list_elem_of_filter. auto.
Qed.

Lemma StronglySorted_Forall (P : A → Prop) l :
  StronglySorted R l → Forall P l →
  StronglySorted (λ x y, P x ∧ P y ∧ R x y) l.
Proof.
  induction 1 as [|x l Hl IH Hx]; [constructor|].
  intros [Px Pl]%Forall_cons. constructor; [by apply IH|].
  rewrite Forall_forall in *. intros y Hy. auto.
Qed.

Lemma StronglySorted_lookup l i j x y :
  StronglySorted R l → l !! i = Some x → l !! j = Some y → i < j → R x y.
Proof.
  intros Hs Hi Hj Hlt. rewrite <-(take_drop j l) in Hs.
  eapply StronglySorted_app_1_elem_of; [done| |].
  - apply list_elem_of_lookup. exists i. by rewrite lookup_take_lt.
  - apply list_elem_of_lookup. exists 0. by rewrite lookup_drop, Nat.add_0_r.
Qed.
End SortedLists.

Section Nest.
Implicit Types (h : gmap loc CSSSnippet) (st : store).

Lemma deref_spec h l :
  (∀ r, r ∈ l → is_Some (h !! r)) →
  ∃ items, deref h l = Some items
    ∧ items.*1 = l
    ∧ ∀ x, x ∈ items → h !! x.1 = Some x.2.
Proof.
  induction l as [|r l IH]; intros Hl.
  { exists []. split_and!; [done..|]. by intros x ?%elem_of_nil. }
  destruct IH as (items & Hd & Hf & Ho).
  { intros r' ?. apply Hl. by right. }
  destruct (Hl r) as [s Hs]; [by left|].
  exists ((r, s) :: items). unfold deref in *. cbn. rewrite Hs. cbn.
  rewrite Hd. cbn. split_and!; [done|by rewrite Hf|].
  intros x [->|Hx]%elem_of_cons; [done|auto].
Qed.

(** What a call of [nest] does: it returns [a], stores the sorted array at
    [a] and leaves a store of objects [nested_from] the one it found. *)
Lemma nest_spec a st snippets :
  arrays st !! a = Some snippets →
  (∀ r, r ∈ snippets → is_Some (objs st !! r)) →
  ∃ items h',
    deref (objs st) snippets = Some items
    ∧ items.*1 = snippets
    ∧ (∀ x, x ∈ items → objs st !! x.1 = Some x.2)
    ∧ nested_from (objs st) h'
    ∧ nest a st
      = Some (a, {| objs := h';
                    arrays := <[a := (array_sort (λ x y, snippetsSort x.2 y.2)
                                        items).*1]> (arrays st) |})
    ∧ ∃ stack',
        nest_loop
          (filter (λ x, isProperty x.2 = true)
             (array_sort (λ x y, snippetsSort x.2 y.2) items)).*1
          (objs st) [] = Some (h', stack').
Proof.
  intros Ha Hvalid.
  destruct (deref_spec (objs st) snippets Hvalid) as (items & Hd & Hfst & Hobj).
  set (sorted := array_sort (λ x y, snippetsSort x.2 y.2) items).
  destruct (nest_loop_nested
              (filter (λ x, isProperty x.2 = true) sorted).*1 (objs st) [])
    as (h' & stack' & Hloop & Hn).
  - intros r (x & -> & [Hp Hx]%list_elem_of_filter)%list_elem_of_fmap.
    unfold sorted in Hx. rewrite array_sort_perm in Hx.
    apply Hobj in Hx. destruct x as [r [k v|k p v d]]; [done|].
    by exists k, p, v, d.
  - by intros x ?%elem_of_nil.
  - exists items, h'. split_and!; try done; [|by exists stack'].
    unfold nest. rewrite Ha. cbn. rewrite Hd. cbn.
    fold sorted. by rewrite Hloop.
Qed.

Lemma nested_from_key_at h h' r : nested_from h h' → key_at h' r = key_at h r.
Proof.
  intros H. specialize (H r). unfold key_at.
  destruct (h !! r) as [[k v|k p v d]|].
  - by rewrite H.
  - destruct H as (added & -> & _). done.
  - by rewrite H.
Qed.

(** The array [nest] stores: a permutation of the one it found, in key
    order. *)
Lemma sorted_array h snippets items :
  items.*1 = snippets →
  (∀ x, x ∈ items → h !! x.1 = Some x.2) →
  (array_sort (λ x y, snippetsSort x.2 y.2) items).*1 ≡ₚ snippets
  ∧ StronglySorted (loc_key_le h)
      (array_sort (λ x y, snippetsSort x.2 y.2) items).*1.
Proof.
  intros <- Hobj. split; [by rewrite array_sort_perm|].
  eapply StronglySorted_fmap;
    [|apply (StronglySorted_Forall
               (λ x y : loc * CSSSnippet, key_le (key x.2) (key y.2))
               (λ x, h !! x.1 = Some x.2));
      [apply sorted_by_key|]].
  - intros x y (Hx & Hy & Hle). exists (key x.2), (key y.2).
    unfold key_at. by rewrite Hx, Hy.
  - apply Forall_forall. intros x Hx. apply Hobj.
    by rewrite array_sort_perm in Hx.
Qed.
End Nest.

(** C5: [nest] keeps the snippets of its input: the array it leaves has the
    elements of the array it found, as many as before and none twice more or
    less, in key order; and every Raw snippet is the object it was. *)
Theorem nest_preserves_snippets (a : loc) (st : store) (snippets : list loc) :
  arrays st !! a = Some snippets →
  (∀ r, r ∈ snippets → is_Some (objs st !! r)) →
  ∃ st' out,
    nest a st = Some (a, st')
    ∧ arrays st' !! a = Some out
    ∧ out ≡ₚ snippets
    ∧ length out = length snippets
    ∧ StronglySorted (loc_key_le (objs st')) out
    ∧ ∀ r k v, objs st !! r = Some (Raw k v) → objs st' !! r = Some (Raw k v).
Proof.
  intros Ha Hvalid.
  destruct (nest_spec a st snippets Ha Hvalid)
    as (items & h' & _ & Hfst & Hobj & Hn & Hnest & _).
  destruct (sorted_array (objs st) snippets items Hfst Hobj) as [Hperm Hsorted].
  eexists _, _. split; [exact Hnest|]. cbn.
  split_and!; [by rewrite lookup_insert_eq|done|by rewrite Hperm| |].
  - eapply StronglySorted_fmap with (f := id) in Hsorted;
      [by rewrite list_fmap_id in Hsorted|].
    intros x y (kx & ky & Hx & Hy & Hle). exists kx, ky.
    by rewrite !(nested_from_key_at (objs st) h').
  - intros r k v Hr. specialize (Hn r). by rewrite Hr in Hn.
Qed.

(** C7: [nest] appends to the [dependencies] of a Property only snippets
    whose name is the name of that Property, a hyphen and more; a snippet
    whose name merely starts like it (border, borderx) is not appended. *)
Theorem nest_links_hyphen_only (a : loc) (st : store) (snippets : list loc) :
  arrays st !! a = Some snippets →
  (∀ r, r ∈ snippets → is_Some (objs st !! r)) →
  ∃ st',
    nest a st = Some (a, st')
    ∧ ∀ x y kx px vx dx py,
        objs st !! x = Some (Property kx px vx dx) →
        pname (objs st) y = Some py →
        (¬ ∃ u, py = px +:+ String "-" u) →
        ∃ added,
          objs st' !! x = Some (Property kx px vx (dx ++ added)) ∧ y ∉ added.
Proof.
  intros Ha Hvalid.
  destruct (nest_spec a st snippets Ha Hvalid)
    as (items & h' & _ & _ & _ & Hn & Hnest & _).
  eexists. split; [exact Hnest|]. cbn.
  intros x y kx px vx dx py Hx Hy Hno. specialize (Hn x). rewrite Hx in Hn.
  destruct Hn as (added & Hx' & Hadded). exists added. split; [done|].
  intros (pc & Hpc & Hlong%is_longhand_of_spec)%Hadded.
  apply Hno. by assert (pc = py) as -> by congruence.
Qed.

(** C10: [nest] returns the array it was given, and that array itself holds
    the snippets in key order after the call; no other array changes. *)
Theorem nest_sorts_in_place (a : loc) (st : store) (snippets : list loc) :
  arrays st !! a = Some snippets →
  (∀ r, r ∈ snippets → is_Some (objs st !! r)) →
  ∃ st' out,
    nest a st = Some (a, st')
    ∧ arrays st' !! a = Some out
    ∧ out ≡ₚ snippets
    ∧ StronglySorted (loc_key_le (objs st)) out
    ∧ ∀ b, b ≠ a → arrays st' !! b = arrays st !! b.
Proof.
  intros Ha Hvalid.
  destruct (nest_spec a st snippets Ha Hvalid)
    as (items & h' & _ & Hfst & Hobj & _ & Hnest & _).
  destruct (sorted_array (objs st) snippets items Hfst Hobj) as [Hperm Hsorted].
  eexists _, _. split; [exact Hnest|]. cbn.
  split_and!; [by rewrite lookup_insert_eq|done..|].
  intros b Hb. by rewrite lookup_insert_ne.
Qed.

Lemma longhand_not_le p u : ¬ key_le (p +:+ String "-" u) p.
Proof.
  intros Hle.
  pose proof (key_le_antisym _ _ Hle (or_intror (lt_longhand _ _))) as E.
  pose proof (lt_longhand p u) as Hlt. rewrite E in Hlt.
  by rewrite lt_irrefl in Hlt.
Qed.

Lemma pname_key_at h r k p v d :
  h !! r = Some (Property k p v d) → pname h r = Some p ∧ key_at h r = Some k.
Proof. intros H. unfold pname, key_at. by rewrite H. Qed.

(** C1, amended: when every Property snippet of the input has its property
    name as key, no name has a character that sorts before the hyphen, and no
    two Property snippets have one name, then after [nest] a snippet whose
    name is the name of another, a hyphen and more, is reachable from that
    other through [dependencies] and comes after it in the array. *)
Theorem nest_links_longhands (a : loc) (st : store) (snippets : list loc) :
  arrays st !! a = Some snippets →
  (∀ r, r ∈ snippets → is_Some (objs st !! r)) →
  (∀ r k p v d, r ∈ snippets → objs st !! r = Some (Property k p v d) →
                k = p ∧ hyphen_least p) →
  (∀ r1 r2 p, r1 ∈ snippets → r2 ∈ snippets →
              pname (objs st) r1 = Some p → pname (objs st) r2 = Some p →
              r1 = r2) →
  ∃ st' out,
    nest a st = Some (a, st')
    ∧ arrays st' !! a = Some out
    ∧ ∀ x y px py u,
        x ∈ snippets → y ∈ snippets →
        pname (objs st) x = Some px → pname (objs st) y = Some py →
        py = px +:+ String "-" u →
        reachable (objs st') x y
        ∧ ∀ i j, out !! i = Some x → out !! j = Some y → i < j.
Proof.
  intros Ha Hvalid Hkeys Huniq.
  destruct (nest_spec a st snippets Ha Hvalid)
    as (items & h' & _ & Hfst & Hobj & Hn & Hnest & stack' & Hloop).
  destruct (sorted_array (objs st) snippets items Hfst Hobj) as [Hperm Hsorted].
  set (h0 := objs st) in *.
  set (sorted := array_sort (λ x y, snippetsSort x.2 y.2) items) in *.
  set (props := filter (λ x, isProperty x.2 = true) sorted) in *.
  set (P := λ x : loc * CSSSnippet,
         h0 !! x.1 = Some x.2 ∧ isProperty x.2 = true ∧ x.1 ∈ snippets).
  assert (Forall P props) as HP.
  { apply Forall_forall. intros x [Hp Hx]%list_elem_of_filter.
    unfold sorted in Hx. rewrite array_sort_perm in Hx.
    split_and!; [by apply Hobj|done|]. rewrite <-Hfst.
    by apply list_elem_of_fmap_2. }
  assert (∀ r, r ∈ props.*1 ↔ r ∈ snippets ∧ is_property_at h0 r) as Hmem.
  { intros r. split.
    - intros (x & -> & Hx)%list_elem_of_fmap.
      rewrite Forall_forall in HP. destruct (HP x Hx) as (Hx1 & Hx2 & Hx3).
      split; [done|]. destruct x as [r [k v|k p v d]]; [done|].
      by exists k, p, v, d.
    - intros [Hr (k & p & v & d & Hp)]. rewrite <-Hfst in Hr.
      apply list_elem_of_fmap in Hr as ([r' s] & -> & Hx).
      pose proof (Hobj _ Hx) as Hs. cbn in Hs, Hp.
      apply (list_elem_of_fmap_2 fst _ (r', s)).
      apply list_elem_of_filter. split.
      + cbn. assert (s = Property k p v d) as -> by congruence. done.
      + unfold sorted. by rewrite array_sort_perm. }
  destruct (nest_loop_links h0 [] props.*1 h0 [])
    as (h'' & stack'' & Hloop' & _ & Hfinal); cbn [app].
  - eapply StronglySorted_fmap;
      [|apply (StronglySorted_Forall
                 (λ x y : loc * CSSSnippet, key_le (key x.2) (key y.2)) P);
        [apply StronglySorted_filter, sorted_by_key|done]].
    intros [x sx] [y sy] ((Hx & Hpx & Hinx) & (Hy & Hpy & Hiny) & Hle).
    cbn in *. destruct sx as [|kx px vx dx], sy as [|ky py vy dy]; try done.
    destruct (Hkeys x kx px vx dx Hinx Hx) as [-> _].
    destruct (Hkeys y ky py vy dy Hiny Hy) as [-> _].
    exists px, py. unfold pname. by rewrite Hx, Hy.
  - intros r [Hr (k & p & v & d & Hp)]%Hmem. exists p.
    split; [by apply pname_key_at in Hp as [? _]|]. by eapply Hkeys.
  - intros r1 r2 [H1 (k & p & v & d & Hp)]%Hmem [H2 _]%Hmem E.
    apply pname_key_at in Hp as [Hp _].
    apply (Huniq r1 r2 p); [done|done|congruence|congruence].
  - apply nested_from_refl.
  - done.
  - by intros x ?%elem_of_nil.
  - by intros ? ? ?%elem_of_nil.
  - by intros ? ? ?%elem_of_nil.
  - assert (h'' = h') as -> by congruence.
    eexists _, _. split; [exact Hnest|]. cbn. rewrite lookup_insert_eq.
    split; [done|]. intros x y px py u Hx Hy Hpx Hpy ->. split.
    + apply Hfinal.
      * apply Hmem. split; [done|]. apply is_property_at_pname. by rewrite Hpx.
      * apply Hmem. split; [done|]. apply is_property_at_pname. by rewrite Hpy.
      * exists px, (px +:+ String "-" u). split_and!; [done..|].
        apply is_longhand_of_spec. eauto.
    + intros i j Hi Hj.
      pose proof Hpx as (kx & vx & dx & Hox)%pname_Some.
      pose proof Hpy as (ky & vy & dy & Hoy)%pname_Some.
      destruct (Hkeys _ _ _ _ _ Hx Hox) as [-> _].
      destruct (Hkeys _ _ _ _ _ Hy Hoy) as [-> _].
      apply pname_key_at in Hox as [_ Hkx]. apply pname_key_at in Hoy as [_ Hky].
      destruct (lt_eq_lt_dec i j) as [[?| ->]|Hlt]; [done| |].
      * assert (x = y) as -> by congruence.
        assert (px = px +:+ String "-" u) as E by congruence.
        destruct (longhand_not_le px u). rewrite <-E. apply key_le_refl.
      * destruct (StronglySorted_lookup _ _ _ _ _ _ Hsorted Hj Hi Hlt)
          as (k1 & k2 & Hk1 & Hk2 & Hle).
        destruct (longhand_not_le px u).
        assert (k1 = px +:+ String "-" u) as <- by congruence.
        by assert (k2 = px) as <- by congruence.
Qed.

(** ** Examples *)

Lemma closedb_closed h : closedb h = true → closed h.
Proof.
  unfold closedb. rewrite forallb_forall.
  intros H a b (k & p & v & d & Ha & Hb).
  apply elem_of_map_to_list, list_elem_of_In, H in Ha. cbn in Ha.
  rewrite forallb_forall in Ha. apply list_elem_of_In, Ha in Hb.
  destruct (h !! b) as [[]|]; try done. by repeat eexists.
Qed.

Lemma cycle_heap_closed : closed cycle_heap.
Proof. by apply closedb_closed. Qed.

Lemma cycle_heap_later_closed : closed cycle_heap_later.
Proof. by apply closedb_closed. Qed.

(** Case analysis on membership in a list that is written out. *)
Ltac in_cases H :=
  repeat (apply elem_of_cons in H as [->|H]); [..|by apply elem_of_nil in H].

Lemma cycle_heap_reachable r :
  reachable cycle_heap 1%positive r → r = 1%positive ∨ r = 2%positive.
Proof.
  revert r. apply rtc_ind_r; [by left|].
  intros y z _ (k & p & v & d & Hy & Hz) [->| ->]; vm_compute in Hy;
    simplify_eq; in_cases Hz; auto.
Qed.

Lemma cycle_heap_later_same r :
  reachable cycle_heap 1%positive r → cycle_heap_later !! r = cycle_heap !! r.
Proof. by intros [->| ->]%cycle_heap_reachable. Qed.

Lemma css_store_valid r :
  r ∈ [1; 2; 3; 4; 5]%positive → is_Some (objs css_store !! r).
Proof. intros Hr. in_cases Hr; by eexists. Qed.

Lemma css_store_keys r k p v d :
  r ∈ [1; 2; 3; 4; 5]%positive →
  objs css_store !! r = Some (Property k p v d) →
  k = p ∧ hyphen_least p.
Proof. intros Hr Hobj. in_cases Hr; vm_compute in Hobj; by simplify_eq. Qed.

Lemma css_store_names r1 r2 p :
  r1 ∈ [1; 2; 3; 4; 5]%positive → r2 ∈ [1; 2; 3; 4; 5]%positive →
  pname (objs css_store) r1 = Some p → pname (objs css_store) r2 = Some p →
  r1 = r2.
Proof.
  intros H1 H2 Hp1 Hp2. in_cases H1; in_cases H2;
    vm_compute in Hp1, Hp2; by simplify_eq.
Qed.

Lemma call_heap_closed : closed call_heap.
Proof. by apply closedb_closed. Qed.

(** What the nodes of [call_heap] hold, read off the store: the literals x
    and z and the name of the call, not its argument. *)
Lemma call_heap_holds kw :
  (∃ r, reachable call_heap 1%positive r ∧ snippet_holds call_heap r kw)
  ↔ kw = "x" ∨ kw = "url" ∨ kw = "z".
Proof.
  split.
  - intros (r & _ & k & p & value & d & alt & Hobj & Halt & v & n & Hv & Hn & Hc).
    apply elem_of_list_to_map_2 in Hobj.
    repeat (apply elem_of_cons in Hobj as [Hobj|Hobj]);
      [..|by apply elem_of_nil in Hobj]; simplify_eq;
      in_cases Halt; in_cases Hv; cbn in Hn; in_cases Hn; inversion Hc; auto.
  - assert (edge call_heap 1%positive 2%positive) as He.
    { eexists _, _, _, _. split; [reflexivity|]. by left. }
    intros [->|[->| ->]].
    + exists 1%positive. split; [done|].
      eexists _, _, _, _, _. split_and!; [reflexivity|by left|].
      eexists _, _. split_and!; [by left|by left|constructor].
    + exists 1%positive. split; [done|].
      eexists _, _, _, _, _. split_and!; [reflexivity|by left|].
      eexists _, _. split_and!; [by left|by right; left|constructor].
    + exists 2%positive. split; [by apply rtc_once|].
      eexists _, _, _, _, _. split_and!; [reflexivity|by right; left|].
      eexists _, _. split_and!; [by left|by right; left|constructor].
Qed.

(** The keywords of two nodes that list each other: x, which both have, the
    name url of the call and z, each once; not the argument of the call. *)
Lemma getKeywords_cycle_safe_witness :
  closed call_heap
  ∧ is_Some (call_heap !! 1%positive)
  ∧ edge call_heap 1%positive 2%positive
  ∧ edge call_heap 2%positive 1%positive
  ∧ ∃ res,
      getKeywords call_heap 1%positive = Some res
      ∧ NoDup (keyword <$> res)
      ∧ (∀ kw, kw ∈ keyword <$> res
               ↔ ∃ r, reachable call_heap 1%positive r
                      ∧ snippet_holds call_heap r kw)
      ∧ ∀ kw, kw ∈ keyword <$> res ↔ kw = "x" ∨ kw = "url" ∨ kw = "z".
Proof.
  assert (is_Some (call_heap !! 1%positive)) as Hs by (by eexists).
  split_and!.
  - exact call_heap_closed.
  - exact Hs.
  - eexists _, _, _, _. split; [reflexivity|]. by left.
  - eexists _, _, _, _. split; [reflexivity|]. by left.
  - destruct (getKeywords_cycle_safe call_heap 1%positive call_heap_closed Hs)
      as (res & Hres & Hnd & Hkw).
    exists res. split_and!; [done..|]. intros kw. rewrite Hkw.
    apply call_heap_holds.
Defined.

Lemma no_dependencies_unreachable (h : gmap loc CSSSnippet) x y k p v :
  h !! x = Some (Property k p v []) → x ≠ y → ¬ reachable h x y.
Proof.
  intros Hx Hne Hr. destruct Hr as [|x y z (k' & p' & v' & d' & Hx' & Hy) _].
  - done.
  - rewrite Hx in Hx'. injection Hx' as <- <- <- <-. by apply elem_of_nil in Hy.
Qed.

(** [links_every_longhand] fails on each of the three stores: the longhand
    is not reachable from the shorthand after [nest]. *)
Lemma nest_longhands_counterexample :
  ¬ links_every_longhand 9%positive alias_store
  ∧ ¬ links_every_longhand 9%positive twin_store
  ∧ ¬ links_every_longhand 9%positive bang_store.
Proof.
  split_and!; intros H;
    destruct (H _ eq_refl) as (st' & out & Hnest & _ & Hall);
    vm_compute in Hnest; injection Hnest as <-.
  - destruct (Hall 1%positive 2%positive "background" "background-position"
                "position") as [Hreach _];
      [by left|by right; left|done..|].
    by eapply no_dependencies_unreachable in Hreach.
  - destruct (Hall 1%positive 3%positive "a" "a-b" "b") as [Hreach _];
      [by left|by right; right; left|done..|].
    by eapply no_dependencies_unreachable in Hreach.
  - destruct (Hall 1%positive 3%positive "a" "a-b" "b") as [Hreach _];
      [by left|by right; right; left|done..|].
    by eapply no_dependencies_unreachable in Hreach.
Qed.

(** The longhands of [css_store] are linked and sorted after their
    shorthands. *)
Lemma nest_links_longhands_witness :
  arrays css_store !! 9%positive = Some [1; 2; 3; 4; 5]%positive
  ∧ ∃ st' out,
      nest 9%positive css_store = Some (9%positive, st')
      ∧ arrays st' !! 9%positive = Some out
      ∧ ∀ x y px py u,
          x ∈ [1; 2; 3; 4; 5]%positive → y ∈ [1; 2; 3; 4; 5]%positive →
          pname (objs css_store) x = Some px →
          pname (objs css_store) y = Some py →
          py = px +:+ String "-" u →
          reachable (objs st') x y
          ∧ ∀ i j, out !! i = Some x → out !! j = Some y → i < j.
Proof.
  split; [reflexivity|].
  exact (nest_links_longhands 9%positive css_store [1; 2; 3; 4; 5]%positive
           eq_refl css_store_valid css_store_keys css_store_names).
Defined.

(** The first occurrences of the keywords of [cycle_heap]. *)
Lemma getKeywords_first_seen_witness :
  closed cycle_heap
  ∧ is_Some (cycle_heap !! 1%positive)
  ∧ ∃ visited res,
      getKeywords_visit cycle_heap 1%positive = Some (visited, res)
      ∧ getKeywords cycle_heap 1%positive = Some res
      ∧ NoDup (keyword <$> res)
      ∧ ∀ e, e ∈ res →
          ∃ j node k p value d alt,
            visited !! j = Some node
            ∧ cycle_heap !! node = Some (Property k p value d)
            ∧ value !! index e = Some alt
            ∧ keyword e ∈ keywordsFromValue alt
            ∧ (∀ i' alt', i' < index e → value !! i' = Some alt' →
                 keyword e ∉ keywordsFromValue alt')
            ∧ (∀ j' node', j' < j → visited !! j' = Some node' →
                 keyword e ∉ node_keywords cycle_heap node').
Proof.
  split_and!.
  - exact cycle_heap_closed.
  - by eexists.
  - apply (getKeywords_first_seen cycle_heap 1%positive cycle_heap_closed).
    by eexists.
Defined.

(** Two calls, the second in the store that holds one more object. *)
Lemma getKeywords_deterministic_witness :
  closed cycle_heap ∧ closed cycle_heap_later
  ∧ cycle_heap_later ≠ cycle_heap
  ∧ ∃ res,
      getKeywords cycle_heap 1%positive = Some res
      ∧ getKeywords cycle_heap_later 1%positive = Some res.
Proof.
  split_and!.
  - exact cycle_heap_closed.
  - exact cycle_heap_later_closed.
  - intros E. by apply (f_equal (λ h, h !! 3%positive)) in E.
  - apply (getKeywords_deterministic cycle_heap cycle_heap_later 1%positive
             cycle_heap_closed cycle_heap_later_closed).
    + by eexists.
    + exact cycle_heap_later_same.
Defined.

(** The snippets of [css_store] are kept. *)
Lemma nest_preserves_snippets_witness :
  arrays css_store !! 9%positive = Some [1; 2; 3; 4; 5]%positive
  ∧ ∃ st' out,
      nest 9%positive css_store = Some (9%positive, st')
      ∧ arrays st' !! 9%positive = Some out
      ∧ out ≡ₚ [1; 2; 3; 4; 5]%positive
      ∧ length out = length [1; 2; 3; 4; 5]%positive
      ∧ StronglySorted (loc_key_le (objs st')) out
      ∧ ∀ r k v, objs css_store !! r = Some (Raw k v) →
                 objs st' !! r = Some (Raw k v).
Proof.
  split; [reflexivity|].
  exact (nest_preserves_snippets 9%positive css_store [1; 2; 3; 4; 5]%positive
           eq_refl css_store_valid).
Defined.

(** Only longhands are appended in [css_store]. *)
Lemma nest_links_hyphen_only_witness :
  arrays css_store !! 9%positive = Some [1; 2; 3; 4; 5]%positive
  ∧ ∃ st',
      nest 9%positive css_store = Some (9%positive, st')
      ∧ ∀ x y kx px vx dx py,
          objs css_store !! x = Some (Property kx px vx dx) →
          pname (objs css_store) y = Some py →
          (¬ ∃ u, py = px +:+ String "-" u) →
          ∃ added,
            objs st' !! x = Some (Property kx px vx (dx ++ added))
            ∧ y ∉ added.
Proof.
  split; [reflexivity|].
  exact (nest_links_hyphen_only 9%positive css_store [1; 2; 3; 4; 5]%positive
           eq_refl css_store_valid).
Defined.

(** The array of [css_store] is sorted in place. *)
Lemma nest_sorts_in_place_witness :
  arrays css_store !! 9%positive = Some [1; 2; 3; 4; 5]%positive
  ∧ ∃ st' out,
      nest 9%positive css_store = Some (9%positive, st')
      ∧ arrays st' !! 9%positive = Some out
      ∧ out ≡ₚ [1; 2; 3; 4; 5]%positive
      ∧ StronglySorted (loc_key_le (objs css_store)) out
      ∧ ∀ b, b ≠ 9%positive → arrays st' !! b = arrays css_store !! b.
Proof.
  split; [reflexivity|].
  exact (nest_sorts_in_place 9%positive css_store [1; 2; 3; 4; 5]%positive
           eq_refl css_store_valid).
Defined.

(** The array of [css_store] after [nest]: the object is the one given, its
    elements are in another order than before. *)
Example nest_css_store_array :
  (λ out, arrays out.2 !! out.1) <$> nest 9%positive css_store
  = Some (Some [4; 5; 2; 3; 1]%positive).
Proof. by vm_compute. Qed.

(** The dependencies of background, background-position,
    background-position-x and border after [nest]. *)
Example nest_css_store_graph :
  (λ out, (λ r, edge_list (objs out.2) r) <$> [4; 5; 2; 1]%positive)
    <$> nest 9%positive css_store
  = Some [[5%positive]; [2%positive]; []; []].
Proof. by vm_compute. Qed.

Example createSnippet_display :
  createSnippet word_parse "d" "display:block|flex | grid"
  = Return (prop_keyed "d" "display" ["block"; "flex"; "grid"]).
Proof. by vm_compute. Qed.

Example getKeywords_display :
  getKeywords {[ 1%positive := prop_keyed "d" "display" ["block"; "flex"; "grid"] ]}
    1%positive
  = Some [MkKeywordRef "block" 0; MkKeywordRef "flex" 1; MkKeywordRef "grid" 2].
Proof. by vm_compute. Qed.

(** An alternative that is empty after [trim] has no first parse result. *)
Example createSnippet_empty_alternative :
  createSnippet word_parse "d" "display:block|" = Throw TypeError.
Proof. by vm_compute. Qed.

Lemma not_matches_upper : ¬ matches_reProperty "Display: none".
Proof.
  intros H%exec_is_Some. by destruct H.
Qed.

(** A definition that starts with a capital, with a parser that always
    throws. *)
Lemma createSnippet_free_text_witness :
  ¬ matches_reProperty "Display: none"
  ∧ createSnippet (λ _ _, None) "d" "Display: none"
    = Return (Raw "d" "Display: none").
Proof.
  split; [exact not_matches_upper|].
  exact (createSnippet_free_text (λ _ _, None) "d" "Display: none"
           not_matches_upper).
Defined.


Lemma ident_hyphen_least p : is_ident p → hyphen_least p.
Proof.
  intros [_ H]. unfold hyphen_least. induction p as [|c p IH]; [done|].
  cbn [Re.all_chars] in *. apply andb_true_iff in H as [Hc Hp].
  rewrite (IH Hp), andb_true_r.
  unfold Re.is_ident_char in Hc. apply Nat.leb_le.
  rewrite orb_true_iff, andb_true_iff, !Nat.leb_le, Nat.eqb_eq in Hc. lia.
Qed.



(** ** What [nest] appends *)

Section Added.
Implicit Types (h : gmap loc CSSSnippet) (stack : list loc).

Lemma edge_list_edge h a b : b ∈ edge_list h a ↔ edge h a b.
Proof.
  unfold edge_list, edge. split.
  - destruct (h !! a) as [[k v|k p v d]|]; try by intros ?%elem_of_nil.
    intros Hb. by exists k, p, v, d.
  - by intros (k & p & v & d & -> & Hb).
Qed.

Lemma nested_from_edge_list h0 h r :
  nested_from h0 h → edge_list h r = edge_list h0 r ++ added h0 h r.
Proof.
  intros H. specialize (H r). unfold added, edge_list.
  destruct (h0 !! r) as [[k v|k p v d]|].
  - by rewrite H.
  - destruct H as (d' & -> & _). by rewrite drop_app_length.
  - by rewrite H.
Qed.

Lemma added_refl h r : added h h r = [].
Proof. unfold added. by rewrite drop_all. Qed.

Lemma added_trans h0 h1 h2 r :
  nested_from h0 h1 → nested_from h1 h2 →
  added h0 h2 r = added h0 h1 r ++ added h1 h2 r.
Proof.
  intros H01 H12.
  pose proof (nested_from_edge_list h0 h1 r H01) as E1.
  pose proof (nested_from_edge_list h1 h2 r H12) as E2.
  unfold added at 1. rewrite E2, E1, <-app_assoc. by rewrite drop_app_length.
Qed.

Lemma added_push h prev cur k p v d r :
  h !! prev = Some (Property k p v d) →
  added h (<[prev := Property k p v (d ++ [cur])]> h) r
  = if decide (r = prev) then [cur] else [].
Proof.
  intros Hprev. unfold added, edge_list. destruct (decide (r = prev)) as [->|Hne].
  - rewrite lookup_insert_eq, Hprev. by rewrite drop_app_length.
  - rewrite lookup_insert_ne by done. by rewrite drop_all.
Qed.

Lemma added_names h0 h r c :
  nested_from h0 h → c ∈ added h0 h r → longhand h0 r c.
Proof.
  intros H Hc. specialize (H r). unfold added, edge_list, longhand in *.
  destruct (h0 !! r) as [[k v|k p v d]|] eqn:Hr.
  - rewrite H in Hc. by apply elem_of_nil in Hc.
  - destruct H as (d' & Hh & Hd'). rewrite Hh, drop_app_length in Hc.
    destruct (Hd' c Hc) as (pc & Hpc & Hlong). exists p, pc.
    split_and!; [|done..]. unfold pname. by rewrite Hr.
  - rewrite H in Hc. by apply elem_of_nil in Hc.
Qed.

(** One [cur] of the loop: only the object under which [cur] is placed
    changes, and it is an element of the stack. *)
Lemma nest_place_frame h cur p stack h' stack' :
  (∀ x, x ∈ stack → is_property_at h x) →
  nest_place h cur p stack = Some (h', stack') →
  (∀ r, r ∉ stack → h' !! r = h !! r)
  ∧ (∀ r c, c ∈ added h h' r → c = cur ∧ r ∈ stack)
  ∧ (∀ x, x ∈ stack' → x = cur ∨ x ∈ stack).
Proof.
  intros Hstack Hplace.
  destruct (nest_place_spec h cur p stack Hstack)
    as [(above & prev & below & k & pp & v & d & -> & _ & Hprev & Htest & E)
       |[_ E]]; rewrite E in Hplace; injection Hplace as <- <-.
  - split_and!.
    + intros r Hr. rewrite lookup_insert_ne; [done|]. intros ->.
      apply Hr. set_solver.
    + intros r c. rewrite (added_push h prev cur k pp v d r Hprev).
      case_decide as Hd; [|by intros ?%elem_of_nil].
      intros ->%list_elem_of_singleton. subst. split; [done|]. set_solver.
    + intros x [->|Hx]%elem_of_cons; [by left|right]. set_solver.
  - split_and!; [done| |].
    + intros r c. rewrite added_refl. by intros ?%elem_of_nil.
    + intros x ->%list_elem_of_singleton. by left.
Qed.

(** The loop of [nest] changes only objects of the list it runs over, or
    of the stack it starts with, and appends only objects of that list. *)
Lemma nest_loop_frame props h stack h' stack' :
  (∀ r, r ∈ props → is_property_at h r) →
  (∀ x, x ∈ stack → is_property_at h x) →
  nest_loop props h stack = Some (h', stack') →
  nested_from h h'
  ∧ (∀ r, r ∉ props → r ∉ stack → h' !! r = h !! r)
  ∧ (∀ r c, c ∈ added h h' r → c ∈ props ∧ (r ∈ props ∨ r ∈ stack)).
Proof.
  revert h stack. induction props as [|cur rest IH]; intros h stack Hp Hs.
  { intros [= <- <-]. split_and!; [apply nested_from_refl|done|].
    intros r c. rewrite added_refl. by intros ?%elem_of_nil. }
  destruct (Hp cur) as (k & p & v & d & Hcur); [by left|].
  assert (pname h cur = Some p) as Hname by (apply pname_Some; eauto).
  destruct (nest_place_nested h cur p stack Hname Hs)
    as (h1 & stack1 & Hplace & Hn1 & _).
  destruct (nest_place_frame h cur p stack h1 stack1 Hs Hplace)
    as (Hsame1 & Hadd1 & Hstack1).
  cbn [nest_loop]. rewrite Hcur, Hplace. cbn. intros Hloop.
  destruct (IH h1 stack1) as (Hn2 & Hsame2 & Hadd2); [..|done|].
  - intros r Hr. eapply nested_from_property; [done|]. apply Hp. by right.
  - intros x [->|Hx]%Hstack1; (eapply nested_from_property; [done|]).
    + by exists k, p, v, d.
    + by apply Hs.
  - split_and!.
    + by eapply nested_from_trans.
    + intros r Hr1 Hr2. rewrite Hsame2, Hsame1; [done..| |].
      * intros ?. apply Hr1. by right.
      * intros [->|?]%Hstack1; [|done]. apply Hr1. by left.
    + intros r c. rewrite (added_trans h h1 h') by done.
      intros [[-> Hr]%Hadd1|[Hc Hr]%Hadd2]%elem_of_app.
      * split; [by left|by right].
      * split; [by right|]. destruct Hr as [Hr|[->|Hr]%Hstack1].
        -- left. by right.
        -- left. by left.
        -- by right.
Qed.
End Added.

Section NestInvariants.
Implicit Types (h : gmap loc CSSSnippet) (st : store).

Lemma nested_from_is_Some h h' r :
  nested_from h h' → is_Some (h' !! r) ↔ is_Some (h !! r).
Proof.
  intros H. specialize (H r). destruct (h !! r) as [[k v|k p v d]|].
  - rewrite H. split; eauto.
  - destruct H as (d' & -> & _). split; eauto.
  - by rewrite H.
Qed.


Lemma nested_from_edge_inv h h' a b :
  nested_from h h' → edge h' a b → edge h a b ∨ b ∈ added h h' a.
Proof.
  intros H He. apply edge_list_edge in He.
  rewrite (nested_from_edge_list h h' a H) in He.
  apply elem_of_app in He as [He|He]; [left|by right].
  by apply edge_list_edge.
Qed.

Lemma nested_from_longhand h h' a b :
  nested_from h h' → longhand h' a b ↔ longhand h a b.
Proof.
  intros H. unfold longhand. by rewrite !(nested_from_pname h h').
Qed.

Lemma nested_from_closed h h' : nested_from h h' → closed h → closed h'.
Proof.
  intros H Hcl a b [He|Hb]%(nested_from_edge_inv h h'); [| |done].
  - eapply nested_from_property; [done|]. by eapply Hcl.
  - apply (added_names h h' a b H) in Hb as (pa & pb & _ & Hpb & _).
    eapply nested_from_property; [done|].
    apply is_property_at_pname. by rewrite Hpb.
Qed.

Lemma nested_from_longhand_edges h h' :
  nested_from h h' → longhand_edges h → longhand_edges h'.
Proof.
  intros H Hl a b [He|Hb]%(nested_from_edge_inv h h'); [| |done];
    apply (nested_from_longhand h h'); try done.
  - by apply Hl.
  - by eapply added_names.
Qed.

Lemma longhand_length h a b pa pb :
  longhand h a b → pname h a = Some pa → pname h b = Some pb →
  String.length pa < String.length pb.
Proof.
  intros (pa' & pb' & Ha & Hb & [u ->]%is_longhand_of_spec) Ha' Hb'.
  assert (pa' = pa) as -> by congruence.
  assert (pb = pa +:+ String "-" u) as -> by congruence.
  clear. induction pa as [|c pa IH]; [rewrite append_nil; cbn; lia|].
  rewrite append_cons. cbn [String.length]. lia.
Qed.

(** Along dependencies that are longhands, names get longer. *)
Lemma longhand_edges_reachable h a b :
  longhand_edges h → reachable h a b →
  a = b ∨ ∃ pa pb, pname h a = Some pa ∧ pname h b = Some pb
                   ∧ String.length pa < String.length pb.
Proof.
  intros Hl. induction 1 as [|x y z Hxy _ IH]; [by left|]. right.
  pose proof (Hl x y Hxy) as Hlong.
  pose proof Hlong as (px & py & Hpx & Hpy & _).
  pose proof (longhand_length h x y px py Hlong Hpx Hpy) as Hlen.
  exists px. destruct IH as [<-|(py' & pz & Hpy' & Hpz & Hlen')].
  - by exists py.
  - exists pz. split_and!; [done..|].
    assert (py' = py) as -> by congruence. lia.
Qed.

Lemma longhand_edges_acyclic h a b :
  longhand_edges h → reachable h a b → reachable h b a → a = b.
Proof.
  intros Hl Hab Hba.
  destruct (longhand_edges_reachable h a b Hl Hab)
    as [?|(pa & pb & Ha & Hb & Hlt)]; [done|].
  destruct (longhand_edges_reachable h b a Hl Hba)
    as [?|(pb' & pa' & Hb' & Ha' & Hlt')]; [done|].
  assert (pa' = pa) as -> by congruence.
  assert (pb' = pb) as -> by congruence. lia.
Qed.

(** The Property snippets [nest] runs over are those of its array. *)
Lemma nest_props_members h snippets items r :
  items.*1 = snippets →
  (∀ x, x ∈ items → h !! x.1 = Some x.2) →
  r ∈ (filter (λ x, isProperty x.2 = true)
         (array_sort (λ x y, snippetsSort x.2 y.2) items)).*1
  ↔ r ∈ snippets ∧ is_property_at h r.
Proof.
  intros Hfst Hobj. split.
  - intros ([r' s] & -> & [Hp Hx]%list_elem_of_filter)%list_elem_of_fmap.
    rewrite array_sort_perm in Hx. pose proof (Hobj _ Hx) as Hs.
    cbn in *. split.
    + rewrite <-Hfst. by apply (list_elem_of_fmap_2 fst _ (r', s)).
    + destruct s as [k v|k p v d]; [done|]. by exists k, p, v, d.
  - intros [Hr (k & p & v & d & Hp)]. rewrite <-Hfst in Hr.
    apply list_elem_of_fmap in Hr as ([r' s] & -> & Hx).
    pose proof (Hobj _ Hx) as Hs. cbn in Hs, Hp.
    apply (list_elem_of_fmap_2 fst _ (r', s)).
    apply list_elem_of_filter. split.
    + cbn. assert (s = Property k p v d) as -> by congruence. done.
    + by rewrite array_sort_perm.
Qed.

(** What a call of [nest] leaves: the frame of [nest_spec]. *)
Lemma nest_frame_spec a st snippets :
  arrays st !! a = Some snippets →
  (∀ r, r ∈ snippets → is_Some (objs st !! r)) →
  ∃ st',
    nest a st = Some (a, st')
    ∧ nested_from (objs st) (objs st')
    ∧ (∃ out, arrays st' = <[a := out]> (arrays st) ∧ out ≡ₚ snippets
              ∧ StronglySorted (loc_key_le (objs st)) out)
    ∧ (∀ r, r ∉ snippets → objs st' !! r = objs st !! r)
    ∧ (∀ r c, c ∈ added (objs st) (objs st') r →
              r ∈ snippets ∧ c ∈ snippets).
Proof.
  intros Ha Hvalid.
  destruct (nest_spec a st snippets Ha Hvalid)
    as (items & h' & _ & Hfst & Hobj & Hn & Hnest & stack' & Hloop).
  destruct (sorted_array (objs st) snippets items Hfst Hobj) as [Hperm Hsorted].
  pose proof (nest_props_members (objs st) snippets items) as Hmem.
  apply nest_loop_frame in Hloop as (_ & Hsame & Hadd).
  - eexists. split; [exact Hnest|]. cbn. split_and!; [done|eauto| |].
    + intros r Hr. apply Hsame; [|by intros ?%elem_of_nil].
      intros [? _]%Hmem; done.
    + intros r c [Hc [Hr|Hr]]%Hadd; [|by apply elem_of_nil in Hr].
      apply Hmem in Hc as [Hc _]; [|done..].
      apply Hmem in Hr as [Hr _]; done.
  - intros r [_ Hr]%Hmem; done.
  - by intros x ?%elem_of_nil.
Qed.
End NestInvariants.

(** ** The tree [nest] builds *)

Section Tree.
Implicit Types (h : gmap loc CSSSnippet) (stack : list loc).

Lemma longhand_trans h a b c :
  longhand h a b → longhand h b c → longhand h a c.
Proof.
  intros (pa & pb & Ha & Hb & [u ->]%is_longhand_of_spec)
         (pb' & pc & Hb' & Hc & [w ->]%is_longhand_of_spec).
  assert (pb' = pa +:+ String "-" u) as -> by congruence.
  exists pa, ((pa +:+ String "-" u) +:+ String "-" w).
  split_and!; [done..|]. apply is_longhand_of_spec.
  exists (u +:+ String "-" w). clear.
  induction pa as [|c pa IH]; [done|]. by rewrite !append_cons, IH.
Qed.

Lemma longhand_asym h a b : longhand h a b → longhand h b a → False.
Proof.
  intros Hab Hba. pose proof Hab as (pa & pb & Ha & Hb & _).
  pose proof (longhand_length h a b pa pb Hab Ha Hb).
  pose proof (longhand_length h b a pb pa Hba Hb Ha). lia.
Qed.

Lemma longhand_irrefl h a : ¬ longhand h a a.
Proof. intros H. by eapply longhand_asym. Qed.

Lemma longhand_not_name_le h a b : longhand h a b → name_le h b a → False.
Proof.
  intros (pa & pb & Ha & Hb & [u ->]%is_longhand_of_spec)
         (pb' & pa' & Hb' & Ha' & Hle).
  assert (pa' = pa) as -> by congruence.
  assert (pb' = pa +:+ String "-" u) as -> by congruence.
  by apply longhand_not_le in Hle.
Qed.

(** A name in key order between a name and one of its longhands. *)
Lemma name_le_between h a c b pc :
  pname h c = Some pc → hyphen_least pc →
  name_le h a c → name_le h c b → longhand h a b →
  pname h a = pname h c ∨ longhand h a c.
Proof.
  intros Hc Hleast (pa & pc' & Ha & Hc' & Hle1) (pc'' & pb & Hc'' & Hb & Hle2)
         (pa' & pb' & Ha' & Hb' & [u ->]%is_longhand_of_spec).
  assert (pc' = pc) as -> by congruence.
  assert (pc'' = pc) as -> by congruence.
  assert (pa' = pa) as -> by congruence.
  assert (pb = pa +:+ String "-" u) as -> by congruence.
  destruct (between_longhand _ _ _ Hleast Hle1 Hle2) as [->|[w ->]].
  - left. congruence.
  - right. exists pa, (pa +:+ String "-" w). split_and!; [done..|].
    apply is_longhand_of_spec. eauto.
Qed.

Lemma name_chain_app h above stack :
  name_chain h (above ++ stack) → name_chain h stack.
Proof.
  induction above as [|x above IH]; [done|]. cbn [app name_chain].
  destruct (above ++ stack) eqn:E; [|intros [_ ?]; by apply IH].
  by destruct above, stack.
Qed.

Lemma name_chain_below h x stack a :
  name_chain h (x :: stack) → a ∈ stack → longhand h a x.
Proof.
  revert x. induction stack as [|y stack IH]; intros x.
  - by intros _ ?%elem_of_nil.
  - intros [Hyx Hc] [->|Ha]%elem_of_cons; [done|].
    eapply longhand_trans; [by apply IH|done].
Qed.

Lemma test_longhand h0 h cur p x px :
  nested_from h0 h → pname h0 cur = Some p → pname h x = Some px →
  is_longhand_of p px = true ↔ longhand h0 x cur.
Proof.
  intros Hn Hcur Hx. rewrite (nested_from_pname h0 h) in Hx by done. split.
  - intros Ht. by exists px, p.
  - intros (px' & p' & Hx' & Hp' & Ht). congruence.
Qed.

(** The loop of [nest] over names in key order, none with a character
    before the hyphen and no two objects with one name: it appends [c] to
    the dependencies of [a] exactly when [c] is a longhand of [a] with no
    name of the list between them; once, when the list has no object
    twice. *)
Lemma nest_loop_tree h0 done rest h stack h' stack' :
  StronglySorted (name_le h0) (done ++ rest) →
  (∀ r, r ∈ done ++ rest → ∃ p, pname h0 r = Some p ∧ hyphen_least p) →
  (∀ a b, a ∈ done ++ rest → b ∈ done ++ rest →
          pname h0 a = pname h0 b → a = b) →
  nested_from h0 h →
  name_chain h0 stack →
  (∀ x, x ∈ stack → x ∈ done) →
  (∀ a b, a ∈ done → b ∈ rest → longhand h0 a b → a ∈ stack) →
  (∀ a c, c ∈ added h0 h a →
          a ∈ done ∧ c ∈ done ∧ longhand h0 a c
          ∧ ¬ between h0 (done ++ rest) a c) →
  (∀ a c, a ∈ done → c ∈ done → longhand h0 a c →
          ¬ between h0 (done ++ rest) a c → c ∈ added h0 h a) →
  (NoDup (done ++ rest) → ∀ r, NoDup (added h0 h r)) →
  nest_loop rest h stack = Some (h', stack') →
  (∀ a c, c ∈ added h0 h' a
          ↔ a ∈ done ++ rest ∧ c ∈ done ++ rest ∧ longhand h0 a c
            ∧ ¬ between h0 (done ++ rest) a c)
  ∧ (NoDup (done ++ rest) → ∀ r, NoDup (added h0 h' r)).
Proof.
  revert done h stack.
  induction rest as [|cur rest IH];
    intros done h stack Hsorted Hnames Huniq Hn Hchain Hstack Hcover
           Hsound Hcomplete Hnodup.
  { intros [= <- <-]. rewrite app_nil_r in *. split; [|done].
    intros a c. split; [apply Hsound|]. intros (? & ? & ? & ?). auto. }
  destruct (Hnames cur) as (p & Hcur0 & Hleast); [set_solver|].
  assert (pname h cur = Some p) as Hcur
    by by rewrite (nested_from_pname h0 h).
  pose proof Hcur as (k & v & d & Hobj)%pname_Some.
  assert (∀ x, x ∈ stack → is_property_at h x) as Hprops.
  { intros x Hx. eapply nested_from_property; [done|].
    apply is_property_at_pname. destruct (Hnames x) as (? & -> & _); [|done].
    apply elem_of_app. left. by apply Hstack. }
  assert (∀ a, a ∈ done → name_le h0 a cur) as Hbefore.
  { intros a Ha. eapply StronglySorted_app_1_elem_of; [done..|by left]. }
  assert (∀ b, b ∈ rest → name_le h0 cur b) as Hafter.
  { intros b Hb. apply StronglySorted_app in Hsorted as (_ & _ & Hs).
    apply StronglySorted_cons in Hs as [Hs _].
    by eapply Forall_forall in Hs. }
  assert (∀ b, b ∈ done ++ cur :: rest → longhand h0 b cur → b ∈ done)
    as Hearlier.
  { intros b [?|[->|Hb]%elem_of_cons]%elem_of_app Hlong; [done| |].
    - by apply longhand_irrefl in Hlong.
    - destruct (longhand_not_name_le h0 b cur Hlong). by apply Hafter. }
  assert (∀ a, a ∈ done → longhand h0 a cur → a ∈ stack) as Hparents.
  { intros a Ha Hlong. eapply Hcover; [done|by left|done]. }
  assert (∀ a b px, a ∈ done → b ∈ rest → longhand h0 a b →
                    pname h a = Some px → is_longhand_of p px = false →
                    a = cur) as Hpopped.
  { intros a b px Ha Hb Hlong Hpx Htest.
    destruct (name_le_between h0 a cur b p) as [E|Hac]; auto.
    - apply Huniq; [set_solver..|done].
    - apply (test_longhand h0 h cur p a px) in Hac; [congruence|done..]. }
  assert ((done ++ [cur]) ++ rest = done ++ cur :: rest) as Happ
    by by rewrite <-app_assoc.
  cbn [nest_loop]. rewrite Hobj.
  destruct (nest_place_spec h cur p stack Hprops)
    as [(above & prev & below & k' & pp & v' & d' & -> & Habove & Hprev
         & Htest & ->)|[Hall ->]]; cbn; intros Hloop.
  - assert (nested_from h (<[prev:=Property k' pp v' (d' ++ [cur])]> h))
      as Hn1 by by eapply nested_from_push.
    pose proof (added_push h prev cur k' pp v' d') as Hpush.
    set (h1 := <[prev:=Property k' pp v' (d' ++ [cur])]> h) in *.
    assert (pname h prev = Some pp) as Hpp by (apply pname_Some; eauto).
    assert (longhand h0 prev cur) as Hlink
      by by apply (test_longhand h0 h cur p prev pp).
    assert (prev ∈ done) as Hprevdone by (apply Hstack; set_solver).
    assert (∀ a, a ∈ above → ¬ longhand h0 a cur) as Hnotabove.
    { intros a Ha Hlong. destruct (Habove a Ha) as (px & Hpx & Hf).
      apply (test_longhand h0 h cur p a px) in Hlong; [congruence|done..]. }
    assert (∀ r c, c ∈ added h0 h1 r
                   ↔ c ∈ added h0 h r ∨ (r = prev ∧ c = cur)) as Hadded.
    { intros r c. rewrite (added_trans h0 h h1) by done.
      rewrite elem_of_app, (Hpush r Hprev). case_decide as Hd.
      - rewrite list_elem_of_singleton. naive_solver.
      - rewrite elem_of_nil. naive_solver. }
    rewrite <-Happ. apply (IH (done ++ [cur]) h1 (cur :: prev :: below));
      rewrite ?Happ; try done.
    + by eapply nested_from_trans.
    + split; [done|]. by eapply name_chain_app.
    + intros x [->|Hx]%elem_of_cons; [set_solver|].
      apply elem_of_app. left. apply Hstack. set_solver.
    + intros a b [Ha| ->%list_elem_of_singleton]%elem_of_app Hb Hlong;
        [|by left].
      assert (a ∈ above ++ prev :: below) as [Hin|Hin]%elem_of_app
        by (eapply Hcover; [done| |done]; by right).
      * destruct (Habove a Hin) as (pa & Hpa & Hta).
        rewrite (Hpopped a b pa); [by left|done..].
      * by right.
    + intros a c [Hold|[-> ->]]%Hadded.
      * destruct (Hsound a c Hold) as (? & ? & ? & ?).
        split_and!; [set_solver|set_solver|done..].
      * split_and!; [set_solver|set_solver|done|].
        intros (b & Hb & Hpb & Hbc).
        pose proof (Hearlier b Hb Hbc) as Hbdone.
        pose proof (Hparents b Hbdone Hbc) as [Hin|[->|Hin]%elem_of_cons]%elem_of_app.
        -- by apply (Hnotabove b).
        -- by apply longhand_irrefl in Hpb.
        -- apply (longhand_asym h0 b prev); [|done].
           eapply name_chain_below; [|done]. by eapply name_chain_app.
    + intros a c [Ha| ->%list_elem_of_singleton]%elem_of_app
                 [Hc| ->%list_elem_of_singleton]%elem_of_app Hlong Hnb;
        apply Hadded.
      * left. by apply Hcomplete.
      * right. split; [|done].
        pose proof (Hparents a Ha Hlong) as [Hin|[->|Hin]%elem_of_cons]%elem_of_app.
        -- by destruct (Hnotabove a).
        -- done.
        -- destruct Hnb. exists prev. split_and!; [set_solver| |done].
           eapply name_chain_below; [|done]. by eapply name_chain_app.
      * destruct (longhand_not_name_le h0 cur c Hlong). by apply Hbefore.
      * by apply longhand_irrefl in Hlong.
    + intros Hnd r. rewrite (added_trans h0 h h1) by done.
      rewrite (Hpush r Hprev). case_decide as Hd; [|by rewrite app_nil_r; auto].
      apply NoDup_app. split_and!; [by auto| |apply NoDup_singleton].
      intros c Hc ->%list_elem_of_singleton.
      destruct (Hsound _ _ Hc) as (_ & Hcd & _).
      apply NoDup_app in Hnd as (_ & Hnd & _). apply (Hnd cur); [done|by left].
  - rewrite <-Happ. apply (IH (done ++ [cur]) h [cur]);
      rewrite ?Happ; try done.
    + intros x ->%list_elem_of_singleton. set_solver.
    + intros a b [Ha| ->%list_elem_of_singleton]%elem_of_app Hb Hlong;
        [|by left].
      assert (a ∈ stack) as Hin by (eapply Hcover; [done| |done]; by right).
      destruct (Hall a Hin) as (pa & Hpa & Hta).
      rewrite (Hpopped a b pa); [by left|done..].
    + intros a c Hold. destruct (Hsound a c Hold) as (? & ? & ? & ?).
      split_and!; [set_solver|set_solver|done..].
    + intros a c [Ha| ->%list_elem_of_singleton]%elem_of_app
                 [Hc| ->%list_elem_of_singleton]%elem_of_app Hlong Hnb.
      * by apply Hcomplete.
      * pose proof (Hparents a Ha Hlong) as Hin.
        destruct (Hall a Hin) as (pa & Hpa & Hta).
        apply (test_longhand h0 h cur p a pa) in Hlong; [congruence|done..].
      * destruct (longhand_not_name_le h0 cur c Hlong). by apply Hbefore.
      * by apply longhand_irrefl in Hlong.
Qed.
End Tree.

Section NestTheorems.
Implicit Types (h : gmap loc CSSSnippet) (st : store).

(** The Property snippets [nest] runs over, under the conditions on keys
    and names: in name order, with names without characters before the
    hyphen, no two objects with one name. *)
Lemma nest_props_facts h snippets items :
  items.*1 = snippets →
  (∀ x, x ∈ items → h !! x.1 = Some x.2) →
  (∀ r k p v d, r ∈ snippets → h !! r = Some (Property k p v d) →
                k = p ∧ hyphen_least p) →
  (∀ r1 r2 p, r1 ∈ snippets → r2 ∈ snippets →
              pname h r1 = Some p → pname h r2 = Some p → r1 = r2) →
  let props := (filter (λ x, isProperty x.2 = true)
                  (array_sort (λ x y, snippetsSort x.2 y.2) items)).*1 in
  StronglySorted (name_le h) props
  ∧ (∀ r, r ∈ props → ∃ p, pname h r = Some p ∧ hyphen_least p)
  ∧ (∀ a b, a ∈ props → b ∈ props → pname h a = pname h b → a = b)
  ∧ (NoDup snippets → NoDup props).
Proof.
  intros Hfst Hobj Hkeys Huniq props.
  pose proof (nest_props_members h snippets items) as Hmem.
  set (sorted := array_sort (λ x y, snippetsSort x.2 y.2) items) in *.
  set (P := λ x : loc * CSSSnippet,
         h !! x.1 = Some x.2 ∧ isProperty x.2 = true ∧ x.1 ∈ snippets).
  assert (Forall P (filter (λ x, isProperty x.2 = true) sorted)) as HP.
  { apply Forall_forall. intros x [Hp Hx]%list_elem_of_filter.
    unfold sorted in Hx. rewrite array_sort_perm in Hx.
    split_and!; [by apply Hobj|done|]. rewrite <-Hfst.
    by apply list_elem_of_fmap_2. }
  split_and!.
  - eapply StronglySorted_fmap;
      [|apply (StronglySorted_Forall
                 (λ x y : loc * CSSSnippet, key_le (key x.2) (key y.2)) P);
        [apply StronglySorted_filter, sorted_by_key|done]].
    intros [x sx] [y sy] ((Hx & Hpx & Hinx) & (Hy & Hpy & Hiny) & Hle).
    cbn in *. destruct sx as [|kx px vx dx], sy as [|ky py vy dy]; try done.
    destruct (Hkeys x kx px vx dx Hinx Hx) as [-> _].
    destruct (Hkeys y ky py vy dy Hiny Hy) as [-> _].
    exists px, py. unfold pname. by rewrite Hx, Hy.
  - intros r [Hr (k & p & v & d & Hp)]%Hmem; [|done..]. exists p.
    split; [by apply pname_key_at in Hp as [? _]|]. by eapply Hkeys.
  - intros r1 r2 [H1 (k & p & v & d & Hp)]%Hmem [H2 _]%Hmem E; [|done..].
    apply pname_key_at in Hp as [Hp _].
    apply (Huniq r1 r2 p); [done|done|congruence|congruence].
  - intros Hnd.
    eapply (sublist_NoDup _ sorted.*1); [|apply fmap_sublist, sublist_filter].
    unfold sorted. by rewrite array_sort_perm, Hfst.
Qed.

Lemma longhand_comparable px py u w :
  px +:+ String "-" u = py +:+ String "-" w →
  px = py ∨ (∃ t, py = px +:+ String "-" t) ∨ (∃ t, px = py +:+ String "-" t).
Proof.
  revert py. induction px as [|c px IH]; intros [|c' py];
    rewrite ?append_nil, ?append_cons.
  - by left.
  - intros [= <- ->]. right. left. by exists py.
  - intros [= -> <-]. right. right. by exists px.
  - intros [= <- [->|[[t ->]|[t ->]]]%IH]; eauto.
Qed.

(** What a call of [nest] appends, under the conditions on keys and
    names. *)
Lemma nest_tree_spec a st snippets :
  arrays st !! a = Some snippets →
  (∀ r, r ∈ snippets → is_Some (objs st !! r)) →
  (∀ r k p v d, r ∈ snippets → objs st !! r = Some (Property k p v d) →
                k = p ∧ hyphen_least p) →
  (∀ r1 r2 p, r1 ∈ snippets → r2 ∈ snippets →
              pname (objs st) r1 = Some p → pname (objs st) r2 = Some p →
              r1 = r2) →
  ∃ st',
    nest a st = Some (a, st')
    ∧ nested_from (objs st) (objs st')
    ∧ (∀ x c, c ∈ added (objs st) (objs st') x
              ↔ x ∈ snippets ∧ c ∈ snippets ∧ longhand (objs st) x c
                ∧ ¬ between (objs st) snippets x c)
    ∧ (NoDup snippets → ∀ r, NoDup (added (objs st) (objs st') r)).
Proof.
  intros Ha Hvalid Hkeys Huniq.
  destruct (nest_spec a st snippets Ha Hvalid)
    as (items & h' & _ & Hfst & Hobj & Hn & Hnest & stack' & Hloop).
  pose proof (nest_props_members (objs st) snippets items) as Hmem.
  destruct (nest_props_facts (objs st) snippets items Hfst Hobj Hkeys Huniq)
    as (Hsorted & Hnames & Hun & Hnd).
  set (props := (filter (λ x, isProperty x.2 = true)
                   (array_sort (λ x y, snippetsSort x.2 y.2) items)).*1) in *.
  assert (∀ r, r ∈ props ↔ r ∈ snippets ∧ is_property_at (objs st) r)
    as Hprops by (intros r; by apply Hmem).
  assert (∀ x c, longhand (objs st) x c →
                 is_property_at (objs st) x ∧ is_property_at (objs st) c)
    as Hlp.
  { intros x c (px & pc & Hx & Hc & _).
    split; apply is_property_at_pname; by eexists. }
  destruct (nest_loop_tree (objs st) [] props (objs st) [] h' stack')
    as [Hchar Hnodup]; cbn [app].
  - done.
  - done.
  - done.
  - apply nested_from_refl.
  - done.
  - by intros x ?%elem_of_nil.
  - by intros ? ? ?%elem_of_nil.
  - intros x c. rewrite added_refl. by intros ?%elem_of_nil.
  - by intros ? ? ?%elem_of_nil.
  - intros _ r. rewrite added_refl. constructor.
  - done.
  - cbn [app] in Hchar, Hnodup. eexists. split; [exact Hnest|]. cbn. split_and!; [done| |by auto].
    intros x c. rewrite Hchar, !Hprops. split.
    + intros ([Hx _] & [Hc _] & Hlong & Hnb). split_and!; [done..|].
      intros (b & Hb & Hxb & Hbc). apply Hnb. exists b.
      split_and!; [|done..]. apply Hprops. split; [done|]. by apply (Hlp x b).
    + intros (Hx & Hc & Hlong & Hnb).
      destruct (Hlp x c Hlong) as [? ?]. split_and!; [done..|].
      intros (b & [Hb _]%Hprops & Hxb & Hbc). apply Hnb. by exists b.
Qed.

(** What a call of [getKeywords] returns on a closed store. *)
Lemma getKeywords_keywords h snippet :
  closed h → is_Some (h !! snippet) →
  ∃ res,
    getKeywords h snippet = Some res
    ∧ ∀ kw, kw ∈ keyword <$> res
            ↔ ∃ r, reachable h snippet r ∧ kw ∈ node_keywords h r.
Proof.
  intros Hcl Hs.
  destruct (getKeywords_visit_spec h snippet Hcl Hs)
    as (visited & res & Hrun & Hnd & Hvis & Hres).
  exists res. unfold getKeywords. rewrite Hrun. split; [done|].
  subst res. intros kw.
  rewrite foldl_see_keywords by apply coherent_empty. cbn.
  rewrite elem_of_nil, list_elem_of_fmap. split.
  - intros [[]|(e & -> & (l & (r & -> & Hr)%list_elem_of_fmap & He)%elem_of_concat)].
    exists r. split; [by apply Hvis|].
    rewrite <-node_entries_keywords. by apply list_elem_of_fmap_2.
  - intros (r & Hr & Hkw). right.
    rewrite <-node_entries_keywords in Hkw.
    apply list_elem_of_fmap in Hkw as (e & -> & He). exists e. split; [done|].
    apply elem_of_concat. exists (node_entries h r). split; [|done].
    apply list_elem_of_fmap_2, Hvis. split; [done|].
    unfold node_entries in He. destruct (h !! r) as [[]|] eqn:Hobj;
      try by apply elem_of_nil in He.
    by repeat eexists.
Qed.

Lemma nested_from_node_keywords h h' r :
  nested_from h h' → node_keywords h' r = node_keywords h r.
Proof.
  intros H. specialize (H r). unfold node_keywords.
  destruct (h !! r) as [[k v|k p v d]|].
  - by rewrite H.
  - by destruct H as (d' & -> & _).
  - by rewrite H.
Qed.
End NestTheorems.

Section NestTwice.
Implicit Types (h : gmap loc CSSSnippet) (st : store).

Lemma array_sort_sorted_id {A} (comparefn : A → A → Z) (l : list A) :
  StronglySorted (sorts_before comparefn) l → array_sort comparefn l = l.
Proof.
  induction 1 as [|x l Hl IH Hx]; [done|].
  change (array_sort comparefn (x :: l))
    with (sort_insert comparefn x (array_sort comparefn l)).
  rewrite IH. destruct Hx as [|y l' Hxy _]; [done|]. cbn.
  unfold sorts_before in Hxy. by destruct (Z.leb_spec (comparefn x y) 0); [|lia].
Qed.

Lemma StronglySorted_fmap_inv {A B} (f : A → B) (R1 : relation A)
    (R2 : relation B) (l : list A) :
  (∀ x y, x ∈ l → y ∈ l → R2 (f x) (f y) → R1 x y) →
  StronglySorted R2 (f <$> l) → StronglySorted R1 l.
Proof.
  induction l as [|x l IH]; intros HR; [constructor|].
  rewrite fmap_cons. intros [Hx Hl]%StronglySorted_cons.
  constructor.
  - apply IH; [|done]. intros y z ? ?. apply HR; by right.
  - apply Forall_forall. intros y Hy. apply HR; [by left|by right|].
    rewrite Forall_forall in Hx. by apply Hx, list_elem_of_fmap_2.
Qed.


(** On an array that is in key order, [nest] leaves the order as it is. *)
Lemma nest_sorted_spec a st snippets :
  arrays st !! a = Some snippets →
  (∀ r, r ∈ snippets → is_Some (objs st !! r)) →
  StronglySorted (loc_key_le (objs st)) snippets →
  ∃ st', nest a st = Some (a, st') ∧ arrays st' = arrays st.
Proof.
  intros Ha Hvalid Hsorted.
  destruct (nest_spec a st snippets Ha Hvalid)
    as (items & h' & _ & Hfst & Hobj & _ & Hnest & _).
  rewrite array_sort_sorted_id in Hnest.
  - eexists. split; [exact Hnest|]. cbn. rewrite Hfst. by apply insert_id.
  - rewrite <-Hfst in Hsorted.
    eapply StronglySorted_fmap_inv; [|exact Hsorted].
    intros x y Hx Hy (kx & ky & Hkx & Hky & Hle).
    apply (snippetsSort_le x.2 y.2). unfold key_at in *.
    rewrite (Hobj x Hx) in Hkx. rewrite (Hobj y Hy) in Hky. cbn in *.
    congruence.
Qed.
End NestTwice.

(** ** Further properties of [nest] *)


(** Under the conditions on keys and names, [nest] appends a snippet to the
    dependencies of its nearest shorthand and of no other snippet: [c] is
    appended to [x] exactly when the name of [c] is the name of [x], a hyphen
    and more, and no snippet of the array has a name between the two. *)
Theorem nest_direct_parents (a : loc) (st : store) (snippets : list loc) :
  arrays st !! a = Some snippets →
  (∀ r, r ∈ snippets → is_Some (objs st !! r)) →
  (∀ r k p v d, r ∈ snippets → objs st !! r = Some (Property k p v d) →
                k = p ∧ hyphen_least p) →
  (∀ r1 r2 p, r1 ∈ snippets → r2 ∈ snippets →
              pname (objs st) r1 = Some p → pname (objs st) r2 = Some p →
              r1 = r2) →
  ∃ st',
    nest a st = Some (a, st')
    ∧ (∀ x, edge_list (objs st') x
            = edge_list (objs st) x ++ added (objs st) (objs st') x)
    ∧ ∀ x c, c ∈ added (objs st) (objs st') x
             ↔ x ∈ snippets ∧ c ∈ snippets ∧ longhand (objs st) x c
               ∧ ¬ between (objs st) snippets x c.
Proof.
  intros Ha Hvalid Hkeys Huniq.
  destruct (nest_tree_spec a st snippets Ha Hvalid Hkeys Huniq)
    as (st' & Hnest & Hn & Hchar & _).
  exists st'. split_and!; [done| |done].
  intros x. by apply nested_from_edge_list.
Qed.

(** Under the same conditions and on an array without repeated elements,
    what [nest] appends is a forest: a snippet is appended once, to the
    dependencies of one snippet. *)
Theorem nest_single_parent (a : loc) (st : store) (snippets : list loc) :
  arrays st !! a = Some snippets →
  (∀ r, r ∈ snippets → is_Some (objs st !! r)) →
  (∀ r k p v d, r ∈ snippets → objs st !! r = Some (Property k p v d) →
                k = p ∧ hyphen_least p) →
  (∀ r1 r2 p, r1 ∈ snippets → r2 ∈ snippets →
              pname (objs st) r1 = Some p → pname (objs st) r2 = Some p →
              r1 = r2) →
  NoDup snippets →
  ∃ st',
    nest a st = Some (a, st')
    ∧ (∀ x, NoDup (added (objs st) (objs st') x))
    ∧ ∀ x y c, c ∈ added (objs st) (objs st') x →
               c ∈ added (objs st) (objs st') y → x = y.
Proof.
  intros Ha Hvalid Hkeys Huniq Hnd.
  destruct (nest_tree_spec a st snippets Ha Hvalid Hkeys Huniq)
    as (st' & Hnest & Hn & Hchar & Hnodup).
  exists st'. split_and!; [done|by auto|].
  intros x y c (Hx & Hc & Hxc & Hnx)%Hchar (Hy & _ & Hyc & Hny)%Hchar.
  pose proof Hxc as (px & pc & Hpx & Hpc & [u ->]%is_longhand_of_spec).
  pose proof Hyc as (py & pc' & Hpy & Hpc' & [w Ew]%is_longhand_of_spec).
  assert (px +:+ String "-" u = py +:+ String "-" w) as E by congruence.
  destruct (longhand_comparable _ _ _ _ E) as [->|[[t ->]|[t ->]]].
  - by apply (Huniq x y py).
  - destruct Hnx. exists y. split_and!; [done| |done].
    exists px, (px +:+ String "-" t). split_and!; [done..|].
    apply is_longhand_of_spec. eauto.
  - destruct Hny. exists x. split_and!; [done| |done].
    exists py, (py +:+ String "-" t). split_and!; [done..|].
    apply is_longhand_of_spec. eauto.
Qed.

(** [nest] keeps a store in which every dependency is a Property: after it,
    [getKeywords] returns on every snippet of the store. *)
Theorem nest_keeps_closed (a : loc) (st : store) (snippets : list loc) :
  arrays st !! a = Some snippets →
  (∀ r, r ∈ snippets → is_Some (objs st !! r)) →
  closed (objs st) →
  ∃ st',
    nest a st = Some (a, st')
    ∧ closed (objs st')
    ∧ ∀ s, is_Some (objs st !! s) → is_Some (getKeywords (objs st') s).
Proof.
  intros Ha Hvalid Hcl.
  destruct (nest_frame_spec a st snippets Ha Hvalid)
    as (st' & Hnest & Hn & _).
  pose proof (nested_from_closed _ _ Hn Hcl) as Hcl'.
  exists st'. split_and!; [done..|]. intros s Hs.
  destruct (getKeywords_keywords (objs st') s Hcl') as (res & -> & _); [|done].
  by apply (nested_from_is_Some (objs st) (objs st')).
Qed.

(** When every dependency in the store is a longhand of its owner, as when
    no snippet has dependencies yet, so it is after [nest], and the
    dependencies have no cycle. *)
Theorem nest_keeps_acyclic (a : loc) (st : store) (snippets : list loc) :
  arrays st !! a = Some snippets →
  (∀ r, r ∈ snippets → is_Some (objs st !! r)) →
  longhand_edges (objs st) →
  ∃ st',
    nest a st = Some (a, st')
    ∧ longhand_edges (objs st')
    ∧ ∀ x y, reachable (objs st') x y → reachable (objs st') y x → x = y.
Proof.
  intros Ha Hvalid Hl.
  destruct (nest_frame_spec a st snippets Ha Hvalid)
    as (st' & Hnest & Hn & _).
  pose proof (nested_from_longhand_edges _ _ Hn Hl) as Hl'.
  exists st'. split_and!; [done..|]. intros x y. by apply longhand_edges_acyclic.
Qed.

(** A second call of [nest] on the array leaves the order the first call
    gave it. *)
Theorem nest_twice_same_order (a : loc) (st : store) (snippets : list loc) :
  arrays st !! a = Some snippets →
  (∀ r, r ∈ snippets → is_Some (objs st !! r)) →
  ∃ st' st'' out,
    nest a st = Some (a, st')
    ∧ arrays st' !! a = Some out
    ∧ nest a st' = Some (a, st'')
    ∧ arrays st'' !! a = Some out.
Proof.
  intros Ha Hvalid.
  destruct (nest_frame_spec a st snippets Ha Hvalid)
    as (st' & Hnest & Hn & (out & Harr & Hperm & Hsorted) & _).
  assert (arrays st' !! a = Some out) as Ha'
    by by rewrite Harr, lookup_insert_eq.
  destruct (nest_sorted_spec a st' out Ha') as (st'' & Hnest' & Harr').
  - intros r Hr. apply (nested_from_is_Some (objs st) (objs st')); [done|].
    apply Hvalid. by rewrite <-Hperm.
  - eapply StronglySorted_fmap with (f := id) in Hsorted;
      [by rewrite list_fmap_id in Hsorted|].
    intros x y (kx & ky & Hx & Hy & Hle). exists kx, ky.
    by rewrite !(nested_from_key_at (objs st) (objs st')).
  - exists st', st'', out. by rewrite Harr'.
Qed.


Section Exposure.
Implicit Types (h : gmap loc CSSSnippet) (st : store).

(** After [nest], under the conditions on keys and names, every longhand
    of the array is reachable from its shorthands. *)
Lemma nest_links_spec a st snippets :
  arrays st !! a = Some snippets →
  (∀ r, r ∈ snippets → is_Some (objs st !! r)) →
  (∀ r k p v d, r ∈ snippets → objs st !! r = Some (Property k p v d) →
                k = p ∧ hyphen_least p) →
  (∀ r1 r2 p, r1 ∈ snippets → r2 ∈ snippets →
              pname (objs st) r1 = Some p → pname (objs st) r2 = Some p →
              r1 = r2) →
  ∃ st',
    nest a st = Some (a, st')
    ∧ nested_from (objs st) (objs st')
    ∧ ∀ x y, x ∈ snippets → y ∈ snippets → longhand (objs st) x y →
             reachable (objs st') x y.
Proof.
  intros Ha Hvalid Hkeys Huniq.
  destruct (nest_spec a st snippets Ha Hvalid)
    as (items & h' & _ & Hfst & Hobj & Hn & Hnest & stack' & Hloop).
  pose proof (nest_props_members (objs st) snippets items) as Hmem.
  destruct (nest_props_facts (objs st) snippets items Hfst Hobj Hkeys Huniq)
    as (Hsorted & Hnames & Hun & _).
  set (props := (filter (λ x, isProperty x.2 = true)
                   (array_sort (λ x y, snippetsSort x.2 y.2) items)).*1) in *.
  destruct (nest_loop_links (objs st) [] props (objs st) [])
    as (h'' & stack'' & Hloop' & _ & Hfinal); cbn [app].
  - done.
  - done.
  - done.
  - apply nested_from_refl.
  - done.
  - by intros x ?%elem_of_nil.
  - by intros ? ? ?%elem_of_nil.
  - by intros ? ? ?%elem_of_nil.
  - assert (h'' = h') as -> by congruence.
    eexists. split; [exact Hnest|]. cbn. split; [done|].
    intros x y Hx Hy Hlong. pose proof Hlong as (px & py & Hpx & Hpy & _).
    apply Hfinal; [| |done]; apply Hmem; try done;
      (split; [done|]); apply is_property_at_pname; by eexists.
Qed.
End Exposure.

(** [nest] makes a shorthand see the keywords of its longhands: under the
    conditions on keys and names and in a store where every dependency is a
    Property, after [nest] every keyword that a snippet of the array holds,
    the text of a Literal or the name of a FunctionCall of one of its
    alternatives, is among those [getKeywords] returns for every snippet of
    the array whose name it extends. *)
Theorem nest_exposes_longhand_keywords (a : loc) (st : store)
    (snippets : list loc) :
  arrays st !! a = Some snippets →
  (∀ r, r ∈ snippets → is_Some (objs st !! r)) →
  (∀ r k p v d, r ∈ snippets → objs st !! r = Some (Property k p v d) →
                k = p ∧ hyphen_least p) →
  (∀ r1 r2 p, r1 ∈ snippets → r2 ∈ snippets →
              pname (objs st) r1 = Some p → pname (objs st) r2 = Some p →
              r1 = r2) →
  closed (objs st) →
  ∃ st',
    nest a st = Some (a, st')
    ∧ ∀ x y, x ∈ snippets → y ∈ snippets → longhand (objs st) x y →
        ∃ res,
          getKeywords (objs st') x = Some res
          ∧ ∀ kw, snippet_holds (objs st) y kw → kw ∈ keyword <$> res.
Proof.
  intros Ha Hvalid Hkeys Huniq Hcl.
  destruct (nest_links_spec a st snippets Ha Hvalid Hkeys Huniq)
    as (st' & Hnest & Hn & Hreach).
  pose proof (nested_from_closed _ _ Hn Hcl) as Hcl'.
  exists st'. split; [done|]. intros x y Hx Hy Hlong.
  destruct (getKeywords_keywords (objs st') x Hcl') as (res & Hres & Hkws).
  { apply (nested_from_is_Some (objs st) (objs st')); auto. }
  exists res. split; [done|]. intros kw Hkw. apply Hkws. exists y.
  split; [by apply Hreach|].
  rewrite (nested_from_node_keywords (objs st)) by done.
  by apply node_keywords_holds.
Qed.

(** ** Further properties of [getKeywords] *)

Section KeywordOrder.
Implicit Types (h : gmap loc CSSSnippet) (stack : list loc) (acc : seen).

Lemma scan_loop_prefix h fuel i stack acc stack' res :
  scan_loop fuel h i stack acc = Some (stack', res) →
  ∃ ext, stack' = stack ++ ext.
Proof.
  revert i stack acc. induction fuel as [|fuel IH]; intros i stack acc; cbn.
  - destruct (stack !! i); [done|]. intros [= <- _]. exists [].
    by rewrite app_nil_r.
  - destruct (stack !! i) as [item|].
    + destruct (h !! item) as [[k v|k p v d]|]; try done.
      intros (ext & ->)%IH.
      destruct (push_dependencies_spec stack d) as (ext' & -> & _).
      exists (ext' ++ ext). by rewrite app_assoc.
    + intros [= <- _]. exists []. by rewrite app_nil_r.
Qed.

Lemma foldl_see_grows acc es : ∃ more, (foldl see acc es).1 = acc.1 ++ more.
Proof.
  revert acc. induction es as [|e es IH]; intros acc; cbn [foldl].
  { exists []. by rewrite app_nil_r. }
  destruct (IH (see acc e)) as (more & ->).
  unfold see, see_keyword. destruct (decide _); cbn [fst]; [by eexists|].
  exists (MkKeywordRef (keyword e) (index e) :: more). by rewrite <-app_assoc.
Qed.

(** The first entry of a keyword is in the result. *)
Lemma first_seen_first es1 e es2 :
  keyword e ∉ keyword <$> es1 → e ∈ first_seen (es1 ++ e :: es2).
Proof.
  intros Hnew. unfold first_seen. rewrite foldl_app. cbn [foldl].
  set (acc := foldl see ([], ∅) es1).
  assert (coherent acc) as [Hl _] by apply coherent_foldl, coherent_empty.
  destruct (foldl_see_grows (see acc e) es2) as (more & ->).
  apply elem_of_app. left. unfold see, see_keyword.
  destruct (decide _) as [Hin|Hin].
  - destruct Hnew. apply Hl in Hin.
    apply (foldl_see_keywords ([], ∅)) in Hin; [|apply coherent_empty].
    by destruct Hin as [?%elem_of_nil|?].
  - cbn [fst]. apply elem_of_app. right. destruct e. by left.
Qed.

Lemma value_entries_app i v1 v2 :
  value_entries i (v1 ++ v2)
  = value_entries i v1 ++ value_entries (i + length v1) v2.
Proof.
  unfold value_entries. rewrite imap_app, concat_app. do 2 f_equal.
  apply imap_ext. intros j x _. f_equal. lia.
Qed.

(** The entry of the first alternative of a node that holds a keyword is
    the first entry of that keyword among the entries of the node. *)
Lemma value_entries_first value i alt kw :
  value !! i = Some alt → kw ∈ keywordsFromValue alt →
  (∀ i' alt', i' < i → value !! i' = Some alt' →
              kw ∉ keywordsFromValue alt') →
  ∃ es1 es2, value_entries 0 value = es1 ++ MkKeywordRef kw i :: es2
             ∧ kw ∉ keyword <$> es1.
Proof.
  intros Hi Hkw Hbefore.
  apply list_elem_of_split_l in Hkw as (k1 & k2 & Hk & Hk1).
  rewrite <-(take_drop_middle value i alt Hi), value_entries_app.
  assert (length (take i value) = i) as Hlen.
  { rewrite length_take. apply lookup_lt_Some in Hi. lia. }
  unfold value_entries at 2. rewrite imap_cons. cbn [concat].
  unfold alt_entries at 1. rewrite Hk, fmap_app, fmap_cons, Hlen.
  rewrite Nat.add_0_l, Nat.add_0_r, <-app_assoc, app_assoc. cbn.
  eexists _, _. split; [done|].
  rewrite fmap_app, elem_of_app, value_entries_keywords.
  intros [(l & (alt' & -> & Halt')%list_elem_of_fmap & Hin)%elem_of_concat|Hin].
  - apply list_elem_of_lookup in Halt' as [i' Hi'].
    apply lookup_take_Some in Hi' as [Hi' Hlt]. by eapply Hbefore.
  - rewrite <-list_fmap_compose in Hin.
    apply list_elem_of_fmap in Hin as (x & -> & Hx). done.
Qed.
End KeywordOrder.

(** On a Raw snippet [getKeywords] returns the empty list, whatever the
    store holds. *)
Theorem getKeywords_raw (h : gmap loc CSSSnippet) (snippet : loc)
    (k v : string) :
  h !! snippet = Some (Raw k v) → getKeywords h snippet = Some [].
Proof.
  intros Hs. unfold getKeywords, getKeywords_visit. rewrite Hs. cbn.
  by destruct (size h).
Qed.

(** [keywordsFromValue] returns the keywords of the value nodes in their
    order. *)
Lemma keywordsFromValue_order (alt : list CSSValue) :
  keywordsFromValue alt = alternative_keywords alt.
Proof.
  unfold keywordsFromValue, alternative_keywords.
  induction alt as [|[l] alt IH]; [done|]. cbn. rewrite omap_app, <-IH.
  f_equal. clear IH. induction l as [|n l IH]; [done|]. cbn. rewrite IH.
  by destruct n.
Qed.

Lemma value_entries_own (value : list (list CSSValue)) :
  value_entries 0 value = own_entries value.
Proof.
  unfold value_entries, own_entries. f_equal. apply imap_ext.
  intros i alt _. unfold alt_entries. by rewrite keywordsFromValue_order.
Qed.

(** The [lookup] set and the [result] array of [getKeywords] record each
    keyword the first time it is seen. *)
Lemma foldl_see_first_entries (es : list CSSKeywordRef) (acc : seen)
    (known : list string) :
  (∀ kw, kw ∈ acc.2 ↔ kw ∈ known) →
  (foldl see acc es).1 = acc.1 ++ first_entries known es.
Proof.
  revert acc known. induction es as [|e es IH]; intros acc known Hknown; cbn.
  - by rewrite app_nil_r.
  - unfold see at 2, see_keyword.
    destruct (decide (keyword e ∈ acc.2)) as [Hin|Hin],
             (decide (keyword e ∈ known)) as [Hin'|Hin'];
      try (exfalso; apply Hknown in Hin; done);
      try (exfalso; apply Hknown in Hin'; done).
    + by apply IH.
    + rewrite (IH _ (keyword e :: known)); cbn.
      * rewrite <-app_assoc. by destruct e.
      * intros kw. rewrite elem_of_union, elem_of_singleton, elem_of_cons.
        rewrite Hknown. tauto.
Qed.

Lemma first_seen_first_entries (es : list CSSKeywordRef) :
  first_seen es = first_entries [] es.
Proof.
  unfold first_seen. rewrite (foldl_see_first_entries es _ []); [done|].
  intros kw. cbn. by rewrite elem_of_empty, elem_of_nil.
Qed.

(** The keywords of the snippet itself come first: the result of
    [getKeywords] begins with the keywords of the snippet's own alternatives,
    the texts of their Literal nodes and the names of their FunctionCall
    nodes in order, each recorded where it is first seen, and is no more than
    these when the snippet has no dependencies; a keyword that the snippet
    holds is reported with the index of the first of its own alternatives
    that holds it, whatever the dependencies hold. *)
Theorem getKeywords_own_first (h : gmap loc CSSSnippet) (snippet : loc)
    (k p : string) (value : list (list CSSValue)) (d : list loc) :
  closed h →
  h !! snippet = Some (Property k p value d) →
  ∃ res rest,
    getKeywords h snippet = Some res
    ∧ res = first_entries [] (own_entries value) ++ rest
    ∧ (d = [] → rest = [])
    ∧ ∀ i alt kw,
        value !! i = Some alt → alternative_holds alt kw →
        (∀ i' alt', i' < i → value !! i' = Some alt' →
                    ¬ alternative_holds alt' kw) →
        MkKeywordRef kw i ∈ res.
Proof.
  intros Hcl Hs.
  destruct (getKeywords_visit_spec h snippet Hcl)
    as (visited & res & Hrun & Hnd & Hvis & Hres); [by eexists|].
  pose proof Hrun as Hloop. unfold getKeywords_visit in Hloop.
  rewrite Hs in Hloop. cbn in Hloop.
  apply scan_loop_prefix in Hloop as (ext & ->).
  assert (node_entries h snippet = value_entries 0 value) as Hown
    by (unfold node_entries; by rewrite Hs).
  cbn in Hres. rewrite Hown, foldl_app in Hres.
  destruct (foldl_see_grows (foldl see ([], ∅) (value_entries 0 value))
              (concat (node_entries h <$> ext))) as (rest & Hrest).
  rewrite Hrest in Hres. fold (first_seen (value_entries 0 value)) in Hres.
  exists res, rest. unfold getKeywords. rewrite Hrun.
  split_and!; [done| | |].
  - by rewrite Hres, first_seen_first_entries, value_entries_own.
  - intros ->. destruct ext as [|x ext]; [|exfalso].
    + cbn in Hrest. rewrite <-(app_nil_r (foldl _ _ _).1) in Hrest at 1.
      by apply app_inv_head in Hrest.
    + destruct (Hvis x) as [[Hr _] _]; [set_solver|].
      apply rtc_inv in Hr as [<-|(y & (?&?&?&?&Hy&Hin) & _)].
      * apply NoDup_cons in Hnd as [Hnd _]. apply Hnd. by left.
      * rewrite Hs in Hy. injection Hy as <- <- <- <-.
        by apply elem_of_nil in Hin.
  - intros i alt kw Hi Hkw Hbefore. rewrite Hres. apply elem_of_app. left.
    apply keywordsFromValue_holds in Hkw.
    destruct (value_entries_first value i alt kw Hi Hkw)
      as (es1 & es2 & -> & Hnew).
    { intros i' alt' Hlt Hi' Hin. apply (Hbefore i' alt' Hlt Hi').
      by apply keywordsFromValue_holds. }
    by apply first_seen_first.
Qed.

(** ** Further properties of [createSnippet] and [snippetsSort] *)

Section BuilderMore.
Import JsString Re.
Variable parse : string → ParseOptions → option (list CSSProperty).

Lemma re_value_capture r v :
  re_value r = Some v → stops is_space v ∨ String.length v = 1.
Proof.
  revert v. induction r as [|c r IH]; intros v; [done|]. cbn [re_value].
  destruct (is_space c) eqn:Hc.
  - destruct (re_value r) as [v'|] eqn:Hr; [intros [= <-]; by apply IH|].
    intros [-> [_ Hp]]%re_payload_Some. right.
    destruct r as [|c' r]; [done|].
    cbn in Hp. apply andb_true_iff in Hp as [_ Hp].
    destruct (re_value_is_Some "" (String c' r)) as [? E]; [done|done|].
    rewrite append_nil in E. congruence.
  - intros [-> _]%re_payload_Some. by left.
Qed.

Lemma re_group_capture s v :
  re_group s = Some v → stops is_space v ∨ String.length v = 1.
Proof.
  unfold re_group. destruct (trimStart s) as [|c r]; [done|].
  destruct (Ascii.eqb c ":"); [|done]. apply re_value_capture.
Qed.

Lemma re_value_stops w v :
  is_spaces w → is_payload v → stops is_space v →
  re_value (w +:+ v) = Some v.
Proof.
  intros Hw Hv Hstop. induction w as [|c w IH].
  - rewrite append_nil. destruct v as [|c v]; [by destruct Hv|].
    cbn in Hstop. cbn [re_value]. rewrite Hstop.
    by apply re_payload_Some.
  - unfold is_spaces in Hw. cbn in Hw. apply andb_true_iff in Hw as [Hc Hw].
    rewrite append_cons. cbn [re_value]. by rewrite Hc, (IH Hw).
Qed.

Lemma re_value_single w c :
  is_spaces w → is_space c = true → is_payload (String c "") →
  re_value (w +:+ String c "") = Some (String c "").
Proof.
  intros Hw Hc Hv. induction w as [|x w IH].
  - rewrite append_nil. cbn [re_value]. rewrite Hc.
    by apply re_payload_Some.
  - unfold is_spaces in Hw. cbn in Hw. apply andb_true_iff in Hw as [Hx Hw].
    rewrite append_cons. cbn [re_value]. by rewrite Hx, (IH Hw).
Qed.

Lemma re_value_greedy w v :
  is_spaces w → is_payload v →
  stops is_space v ∨ String.length v = 1 →
  re_value (w +:+ v) = Some v.
Proof.
  intros Hw Hv [Hstop|Hlen]; [by apply re_value_stops|].
  destruct v as [|c [|c' v]]; try done.
  destruct (is_space c) eqn:Hc; [by apply re_value_single|].
  by apply re_value_stops.
Qed.

Lemma split_length c s : length (split c s) = S (occurrences c s).
Proof.
  unfold split.
  assert (length (split_pieces c s).2 = occurrences c s) as <-.
  { induction s as [|x s IH]; [done|]. cbn.
    destruct (split_pieces c s) as [piece others].
    destruct (Ascii.eqb x c); cbn in *; by rewrite IH. }
  by destruct (split_pieces c s).
Qed.

Lemma mapM_outcome_length {A B} (f : A → outcome B) l vs :
  mapM f l = Return vs → length vs = length l.
Proof.
  revert vs. induction l as [|x l IH]; intros vs; cbn.
  { by intros [= <-]. }
  destruct (f x) as [y|e]; [|done]. cbn.
  destruct (mapM f l) as [k|e]; [|done]. cbn.
  intros [= <-]. cbn. f_equal. by apply IH.
Qed.

Lemma mapM_outcome_throw {A B} (f : A → outcome B) before x after e :
  (∀ y, y ∈ before → ∃ v, f y = Return v) →
  f x = Throw e →
  mapM f (before ++ x :: after) = Throw e.
Proof.
  intros Hb Hx. induction before as [|y before IH]; cbn.
  { by rewrite Hx. }
  destruct (Hb y) as [v ->]; [by left|]. cbn.
  rewrite IH; [done|]. intros z ?. apply Hb. by right.
Qed.
End BuilderMore.

(** [reProperty] matches, in full, the identifiers and the identifiers
    followed by white space, a colon, white space and a payload that is not
    empty and has no line break, and nothing else. *)
Theorem reProperty_language (s : string) :
  is_Some (Re.exec s) ↔ matches_reProperty s.
Proof. apply exec_is_Some. Qed.

(** What a match of [reProperty] captures, and when: the first group is
    the identifier; the second is undefined when the definition is the
    identifier alone, and otherwise the payload after the colon without the
    white space before it, or its last character when there is nothing but
    white space after the colon. *)
Theorem reProperty_captures (s : string) (m : Re.RegExpMatch) :
  Re.exec s = Some m
  ↔ is_ident (Re.group1 m)
    ∧ match Re.group2 m with
      | None => s = Re.group1 m
      | Some v =>
          ∃ w1 w2,
            s = Re.group1 m +:+ w1 +:+ String ":" (w2 +:+ v)
            ∧ is_spaces w1 ∧ is_spaces w2 ∧ is_payload v
            ∧ (stops JsString.is_space v ∨ String.length v = 1)
      end.
Proof.
  split.
  - intros Hm. split; [by eapply exec_group1|]. revert Hm. unfold Re.exec.
    destruct (span_spec Re.is_ident_char s) as (Hs & _ & _).
    destruct (Re.span Re.is_ident_char s) as [ident rest]. cbn in Hs.
    destruct ident as [|c ident]; [done|].
    unfold Re.re_tail. destruct (Re.re_group rest) as [v|] eqn:Hg.
    + intros [= <-]. cbn.
      pose proof (re_group_capture rest v Hg) as Hcap.
      apply re_group_Some in Hg as (w1 & w2 & -> & ? & ? & ?).
      by exists w1, w2.
    + destruct rest; [|done]. intros [= <-]. cbn. by rewrite Hs, append_nil_r.
  - destruct m as [ident [v|]]; cbn.
    + intros (Hid & w1 & w2 & -> & Hw1 & Hw2 & Hv & Hcap).
      rewrite exec_value by done. by rewrite re_value_greedy.
    + intros [Hid ->]. by apply exec_ident.
Qed.

(** What [createSnippet] returns: the Raw snippet of the definition under
    the key, when the definition does not match [reProperty]; or, when it
    does, a Property under the key, named by an identifier of lowercase
    letters and hyphens, without dependencies. *)
Theorem createSnippet_returns
    (parse : string → ParseOptions → option (list CSSProperty))
    (key value : string) (s : CSSSnippet) :
  createSnippet parse key value = Return s →
  (s = Raw key value ∧ ¬ matches_reProperty value)
  ∨ (∃ p values,
       s = Property key p values [] ∧ matches_reProperty value
       ∧ is_ident p ∧ hyphen_least p).
Proof.
  intros Hs. destruct (Re.exec value) as [m|] eqn:Hm.
  - right. assert (matches_reProperty value) as Hmatch
      by (apply exec_is_Some; by eexists).
    unfold createSnippet in Hs. rewrite Hm in Hs.
    apply exec_group1 in Hm. destruct (Re.group2 m); [|done].
    destruct (mapM _ _) as [values|]; [|done]. cbn in Hs. injection Hs as <-.
    exists (Re.group1 m), values. split_and!; [done..|].
    by apply ident_hyphen_least.
  - left. unfold createSnippet in Hs. rewrite Hm in Hs. injection Hs as <-.
    split; [done|]. intros [m' Hm']%exec_is_Some. congruence.
Qed.

(** On an identifier, a colon and a payload, with or without white space
    around the colon, [createSnippet] parses the alternatives of the payload
    from left to right: it returns the Property of the parsed alternatives,
    or throws what the parser throws. *)
Theorem createSnippet_parses_alternatives
    (parse : string → ParseOptions → option (list CSSProperty))
    (key ident w1 w2 payload : string) :
  is_ident ident → is_spaces w1 → is_spaces w2 → is_payload payload →
  createSnippet parse key (ident +:+ w1 +:+ String ":" (w2 +:+ payload))
  = values ← mapM (parseValue parse) (JsString.split "|" payload);
    Return (Property key ident values []).
Proof. apply createSnippet_with_payload. Qed.

(** The Property [createSnippet] returns has one list of values for every
    alternative of the payload: one more than the payload has bars. *)
Theorem createSnippet_values_count
    (parse : string → ParseOptions → option (list CSSProperty))
    (key ident w1 w2 payload k p : string) (values : list (list CSSValue))
    (d : list loc) :
  is_ident ident → is_spaces w1 → is_spaces w2 → is_payload payload →
  createSnippet parse key (ident +:+ w1 +:+ String ":" (w2 +:+ payload))
  = Return (Property k p values d) →
  length values = S (occurrences "|" payload).
Proof.
  intros Hid Hw1 Hw2 Hp. rewrite createSnippet_with_payload by done.
  destruct (mapM _ _) as [vs|] eqn:Hvs; [|done]. cbn. intros [= _ _ <- _].
  apply mapM_outcome_length in Hvs. by rewrite Hvs, split_length.
Qed.

(** The first alternative the parser fails on decides what [createSnippet]
    throws. *)
Theorem createSnippet_first_failure
    (parse : string → ParseOptions → option (list CSSProperty))
    (key ident w1 w2 payload alt : string) (before after : list string)
    (e : exn) :
  is_ident ident → is_spaces w1 → is_spaces w2 → is_payload payload →
  JsString.split "|" payload = before ++ alt :: after →
  (∀ x, x ∈ before → ∃ v, parseValue parse x = Return v) →
  parseValue parse alt = Throw e →
  createSnippet parse key (ident +:+ w1 +:+ String ":" (w2 +:+ payload))
  = Throw e.
Proof.
  intros Hid Hw1 Hw2 Hp Hsplit Hbefore Halt.
  rewrite createSnippet_with_payload by done.
  by rewrite Hsplit, (mapM_outcome_throw _ before alt after e).
Qed.

Lemma lt_asym a b : JsString.lt a b = true → JsString.lt b a = false.
Proof.
  intros Hab. destruct (JsString.lt b a) eqn:Hba; [|done].
  pose proof (lt_trans _ _ _ Hab Hba) as H. by rewrite lt_irrefl in H.
Qed.

(** [snippetsSort] is a consistent comparator: swapping the arguments
    changes the sign, the result is 0 for equal keys only, and the order is
    transitive. *)
Theorem snippetsSort_consistent (a b c : CSSSnippet) :
  snippetsSort b a = (- snippetsSort a b)%Z
  ∧ (snippetsSort a b = 0%Z ↔ key a = key b)
  ∧ ((snippetsSort a b ≤ 0)%Z → (snippetsSort b c ≤ 0)%Z →
     (snippetsSort a c ≤ 0)%Z).
Proof.
  split_and!.
  - unfold snippetsSort.
    destruct (String.eqb_spec (key a) (key b)) as [->|Hne].
    { by rewrite String.eqb_refl. }
    destruct (String.eqb_spec (key b) (key a)) as [E|_]; [by destruct Hne|].
    destruct (JsString.lt (key a) (key b)) eqn:Hab.
    + by rewrite (lt_asym _ _ Hab).
    + destruct (lt_total (key a) (key b)) as [?|[?| ->]]; [done|congruence|done].
  - unfold snippetsSort.
    destruct (String.eqb_spec (key a) (key b)) as [->|Hne]; [done|].
    by destruct (JsString.lt (key a) (key b)).
  - intros Hab%snippetsSort_le Hbc%snippetsSort_le. apply snippetsSort_le.
    by eapply key_le_trans.
Qed.

(** ** Further examples *)

Lemma css_store_closed : closed (objs css_store).
Proof. by apply closedb_closed. Qed.

Lemma css_store_longhand_edges : longhand_edges (objs css_store).
Proof.
  intros a b (k & p & v & d & Ha & Hb).
  apply elem_of_map_to_list, list_elem_of_In in Ha. vm_compute in Ha.
  repeat (destruct Ha as [Ha|Ha]); try done; simplify_eq;
    by apply elem_of_nil in Hb.
Qed.

Lemma css_store_NoDup : NoDup [1; 2; 3; 4; 5]%positive.
Proof. apply (bool_decide_unpack _). by vm_compute. Qed.


(** The direct parents in [css_store]. *)
Lemma nest_direct_parents_witness :
  ∃ st',
    nest 9%positive css_store = Some (9%positive, st')
    ∧ (∀ x, edge_list (objs st') x
            = edge_list (objs css_store) x
              ++ added (objs css_store) (objs st') x)
    ∧ ∀ x c, c ∈ added (objs css_store) (objs st') x
             ↔ x ∈ [1; 2; 3; 4; 5]%positive ∧ c ∈ [1; 2; 3; 4; 5]%positive
               ∧ longhand (objs css_store) x c
               ∧ ¬ between (objs css_store) [1; 2; 3; 4; 5]%positive x c.
Proof.
  exact (nest_direct_parents 9%positive css_store [1; 2; 3; 4; 5]%positive
           eq_refl css_store_valid css_store_keys css_store_names).
Defined.

(** Every snippet of [css_store] is appended once, under one parent. *)
Lemma nest_single_parent_witness :
  ∃ st',
    nest 9%positive css_store = Some (9%positive, st')
    ∧ (∀ x, NoDup (added (objs css_store) (objs st') x))
    ∧ ∀ x y c, c ∈ added (objs css_store) (objs st') x →
               c ∈ added (objs css_store) (objs st') y → x = y.
Proof.
  exact (nest_single_parent 9%positive css_store [1; 2; 3; 4; 5]%positive
           eq_refl css_store_valid css_store_keys css_store_names
           css_store_NoDup).
Defined.

(** [css_store] stays closed. *)
Lemma nest_keeps_closed_witness :
  ∃ st',
    nest 9%positive css_store = Some (9%positive, st')
    ∧ closed (objs st')
    ∧ ∀ s, is_Some (objs css_store !! s) →
           is_Some (getKeywords (objs st') s).
Proof.
  exact (nest_keeps_closed 9%positive css_store [1; 2; 3; 4; 5]%positive
           eq_refl css_store_valid css_store_closed).
Defined.

(** [css_store] has no cycle after [nest]. *)
Lemma nest_keeps_acyclic_witness :
  ∃ st',
    nest 9%positive css_store = Some (9%positive, st')
    ∧ longhand_edges (objs st')
    ∧ ∀ x y, reachable (objs st') x y → reachable (objs st') y x → x = y.
Proof.
  exact (nest_keeps_acyclic 9%positive css_store [1; 2; 3; 4; 5]%positive
           eq_refl css_store_valid css_store_longhand_edges).
Defined.

(** Two calls on [css_store]. *)
Lemma nest_twice_same_order_witness :
  ∃ st' st'' out,
    nest 9%positive css_store = Some (9%positive, st')
    ∧ arrays st' !! 9%positive = Some out
    ∧ nest 9%positive st' = Some (9%positive, st'')
    ∧ arrays st'' !! 9%positive = Some out.
Proof.
  exact (nest_twice_same_order 9%positive css_store [1; 2; 3; 4; 5]%positive
           eq_refl css_store_valid).
Defined.


(** The dependencies of background in [css_store] after one call and after
    two. *)
Example nest_twice_css_store :
  (st' ← snd <$> nest 9%positive css_store;
   st'' ← snd <$> nest 9%positive st';
   Some (edge_list (objs st') 4%positive, edge_list (objs st'') 4%positive))
  = Some ([5%positive], [5%positive; 5%positive]).
Proof. by vm_compute. Qed.

(** The keywords of the longhands of [css_store]: after [nest] the keywords
    of background hold left, the literal of background-position-x, and top,
    the literal of background-position. *)
Lemma nest_exposes_longhand_keywords_witness :
  ∃ st',
    nest 9%positive css_store = Some (9%positive, st')
    ∧ (∀ x y, x ∈ [1; 2; 3; 4; 5]%positive → y ∈ [1; 2; 3; 4; 5]%positive →
         longhand (objs css_store) x y →
         ∃ res,
           getKeywords (objs st') x = Some res
           ∧ ∀ kw, snippet_holds (objs css_store) y kw →
                   kw ∈ keyword <$> res)
    ∧ ∃ res,
        getKeywords (objs st') 4%positive = Some res
        ∧ "left" ∈ keyword <$> res ∧ "top" ∈ keyword <$> res.
Proof.
  destruct (nest_exposes_longhand_keywords 9%positive css_store
              [1; 2; 3; 4; 5]%positive eq_refl css_store_valid css_store_keys
              css_store_names css_store_closed) as (st' & Hnest & Hkw).
  exists st'. split_and!; [done..|].
  destruct (Hkw 4%positive 2%positive) as (res & Hres & Hleft);
    [set_solver..| |].
  { eexists _, _. split_and!; reflexivity. }
  destruct (Hkw 4%positive 5%positive) as (res' & Hres' & Htop);
    [set_solver..| |].
  { eexists _, _. split_and!; reflexivity. }
  assert (res' = res) as -> by congruence.
  exists res. split_and!; [done| |].
  - apply Hleft. eexists _, _, _, _, _.
    split_and!; [reflexivity|by left|].
    eexists _, _. split_and!; [by left|by left|constructor].
  - apply Htop. eexists _, _, _, _, _.
    split_and!; [reflexivity|by left|].
    eexists _, _. split_and!; [by left|by left|constructor].
Defined.

(** The keywords of background after [nest]: its own, then those of
    background-position and background-position-x. *)
Example getKeywords_css_store :
  (st' ← snd <$> nest 9%positive css_store;
   getKeywords (objs st') 4%positive)
  = Some [MkKeywordRef "none" 0; MkKeywordRef "top" 0; MkKeywordRef "left" 0].
Proof. by vm_compute. Qed.

(** The Raw snippet of [cycle_heap_later]. *)
Lemma getKeywords_raw_witness :
  cycle_heap_later !! 3%positive = Some (Raw "c" "text")
  ∧ getKeywords cycle_heap_later 3%positive = Some [].
Proof.
  split; [reflexivity|].
  exact (getKeywords_raw cycle_heap_later 3%positive "c" "text" eq_refl).
Defined.

(** The second node of [call_heap]: its own keywords x and z come first, z
    with the index of the second alternative. *)
Lemma getKeywords_own_first_witness :
  ∃ res rest,
    getKeywords call_heap 2%positive = Some res
    ∧ res = [MkKeywordRef "x" 0; MkKeywordRef "z" 1] ++ rest
    ∧ ([1%positive] = [] → rest = [])
    ∧ (∀ i alt kw,
         [[MkCSSValue [Literal "x"]];
          [MkCSSValue [OtherValue "NumberValue"; Literal "z"]]] !! i
         = Some alt →
         alternative_holds alt kw →
         (∀ i' alt', i' < i →
            [[MkCSSValue [Literal "x"]];
             [MkCSSValue [OtherValue "NumberValue"; Literal "z"]]] !! i'
            = Some alt' →
            ¬ alternative_holds alt' kw) →
         MkKeywordRef kw i ∈ res)
    ∧ MkKeywordRef "z" 1 ∈ res.
Proof.
  destruct (getKeywords_own_first call_heap 2%positive "b" "b" _ _
              call_heap_closed eq_refl)
    as (res & rest & Hres & Hown & Hrest & Hfirst).
  exists res, rest. split_and!; [done..|].
  apply (Hfirst 1 [MkCSSValue [OtherValue "NumberValue"; Literal "z"]]).
  - reflexivity.
  - eexists _, _. split_and!; [by left|by right; left|constructor].
  - intros [|[|i']] alt' Hlt Hi' (v & n & Hv & Hn & Hc); [|lia..].
    injection Hi' as <-. apply list_elem_of_singleton in Hv as ->.
    apply list_elem_of_singleton in Hn as ->. inversion Hc.
Defined.

Lemma matches_display : matches_reProperty "display : block|flex".
Proof.
  exists "display". split; [done|]. right.
  by exists " ", " ", "block|flex".
Qed.

(** A definition with white space around the colon. *)
Lemma reProperty_language_witness :
  matches_reProperty "display : block|flex"
  ∧ is_Some (Re.exec "display : block|flex").
Proof.
  split; [exact matches_display|].
  exact (proj2 (reProperty_language "display : block|flex") matches_display).
Defined.

Lemma reProperty_captures_witness :
  Re.exec "display : block|flex"
  = Some (Re.MkMatch "display" (Some "block|flex"))
  ∧ is_ident "display"
  ∧ ∃ w1 w2,
      "display : block|flex" = "display" +:+ w1 +:+ String ":" (w2 +:+ "block|flex")
      ∧ is_spaces w1 ∧ is_spaces w2 ∧ is_payload "block|flex"
      ∧ (stops JsString.is_space "block|flex"
         ∨ String.length "block|flex" = 1).
Proof.
  split; [reflexivity|].
  exact (proj1 (reProperty_captures "display : block|flex"
                  (Re.MkMatch "display" (Some "block|flex"))) eq_refl).
Defined.

Lemma createSnippet_returns_witness :
  createSnippet word_parse "d" "display:block|flex"
  = Return (prop_keyed "d" "display" ["block"; "flex"])
  ∧ ((prop_keyed "d" "display" ["block"; "flex"] = Raw "d" "display:block|flex"
      ∧ ¬ matches_reProperty "display:block|flex")
     ∨ ∃ p values,
         prop_keyed "d" "display" ["block"; "flex"] = Property "d" p values []
         ∧ matches_reProperty "display:block|flex"
         ∧ is_ident p ∧ hyphen_least p).
Proof.
  split; [reflexivity|].
  exact (createSnippet_returns word_parse "d" "display:block|flex" _ eq_refl).
Defined.

Lemma createSnippet_parses_alternatives_witness :
  createSnippet word_parse "d" ("display" +:+ " " +:+ String ":" (" " +:+ "block|flex"))
  = values ← mapM (parseValue word_parse) (JsString.split "|" "block|flex");
    Return (Property "d" "display" values []).
Proof.
  apply (createSnippet_parses_alternatives word_parse "d" "display" " " " "
           "block|flex"); done.
Defined.

Lemma createSnippet_values_count_witness :
  length [[MkCSSValue [Literal "block"]]; [MkCSSValue [Literal "flex"]]]
  = S (occurrences "|" "block|flex").
Proof.
  apply (createSnippet_values_count word_parse "d" "display" "" "" "block|flex"
           "d" "display" _ []); done.
Defined.

(** The empty alternative after the bar has no first parse result. *)
Lemma createSnippet_first_failure_witness :
  createSnippet word_parse "d" ("display" +:+ "" +:+ String ":" ("" +:+ "block|"))
  = Throw TypeError.
Proof.
  apply (createSnippet_first_failure word_parse "d" "display" "" "" "block|" ""
           ["block"] [] TypeError); try done.
  intros x ->%list_elem_of_singleton. by eexists.
Defined.

Lemma snippetsSort_consistent_witness :
  snippetsSort (Raw "border" "") (Raw "bg" "")
  = (- snippetsSort (Raw "bg" "") (Raw "border" ""))%Z
  ∧ (snippetsSort (Raw "bg" "") (Raw "border" "") = 0%Z ↔ "bg" = "border")
  ∧ ((snippetsSort (Raw "bg" "") (Raw "border" "") ≤ 0)%Z →
     (snippetsSort (Raw "border" "") (Raw "borderx" "") ≤ 0)%Z →
     (snippetsSort (Raw "bg" "") (Raw "borderx" "") ≤ 0)%Z).
Proof.
  exact (snippetsSort_consistent (Raw "bg" "") (Raw "border" "")
           (Raw "borderx" "")).
Defined.

(** ** The order of snippets with one key *)

Section Stability.
Context {A : Type} (comparefn : A → A → Z).
Context (P : A → Prop) `{∀ x, Decision (P x)}.
Hypothesis together : ∀ x y, P x → P y → (comparefn x y ≤ 0)%Z.

Lemma sort_insert_filter x l :
  filter P (sort_insert comparefn x l) = filter P (x :: l).
Proof.
  induction l as [|y l IH]; [done|]. cbn [sort_insert].
  destruct (Z.leb_spec (comparefn x y) 0) as [Hxy|Hxy]; [done|].
  rewrite (filter_cons _ y), IH, !filter_cons.
  destruct (decide (P x)) as [Hx|Hx], (decide (P y)) as [Hy|Hy]; try done.
  pose proof (together x y Hx Hy). lia.
Qed.

(** The sort keeps the order of elements the comparator does not tell
    apart. *)
Lemma array_sort_filter l : filter P (array_sort comparefn l) = filter P l.
Proof.
  induction l as [|x l IH]; [done|].
  change (array_sort comparefn (x :: l))
    with (sort_insert comparefn x (array_sort comparefn l)).
  by rewrite sort_insert_filter, !filter_cons, IH.
Qed.
End Stability.

Lemma filter_fmap_fst {A B} (P : A → Prop) (Q : A * B → Prop)
    `{∀ x, Decision (P x)} `{∀ x, Decision (Q x)} (l : list (A * B)) :
  (∀ x, x ∈ l → Q x ↔ P x.1) → (filter Q l).*1 = filter P l.*1.
Proof.
  induction l as [|x l IH]; intros HPQ; [done|].
  rewrite fmap_cons, !filter_cons.
  assert (Q x ↔ P x.1) as Hx by (apply HPQ; by left).
  rewrite <-IH by (intros y ?; apply HPQ; by right).
  destruct (decide (Q x)), (decide (P x.1)); try done; tauto.
Qed.

(** The sort of [nest] is stable: the snippets of the array that have one
    and the same key are, after [nest], in the order they had before. *)
Theorem nest_keeps_order_of_equal_keys (a : loc) (st : store)
    (snippets : list loc) (k : string) :
  arrays st !! a = Some snippets →
  (∀ r, r ∈ snippets → is_Some (objs st !! r)) →
  ∃ st' out,
    nest a st = Some (a, st')
    ∧ arrays st' !! a = Some out
    ∧ filter (λ r, key_at (objs st) r = Some k) out
      = filter (λ r, key_at (objs st) r = Some k) snippets.
Proof.
  intros Ha Hvalid.
  destruct (nest_spec a st snippets Ha Hvalid)
    as (items & h' & _ & Hfst & Hobj & _ & Hnest & _).
  eexists _, _. split; [exact Hnest|]. cbn. rewrite lookup_insert_eq.
  split; [done|]. rewrite <-Hfst.
  rewrite <-!(filter_fmap_fst (λ r, key_at (objs st) r = Some k)
                (λ x : loc * CSSSnippet, key x.2 = k)).
  - f_equal. apply array_sort_filter. intros x y Hx Hy.
    apply (snippetsSort_le x.2 y.2). left. congruence.
  - intros x Hx. unfold key_at. rewrite (Hobj x Hx). cbn. naive_solver.
  - intros x Hx. rewrite array_sort_perm in Hx.
    unfold key_at. rewrite (Hobj x Hx). cbn. naive_solver.
Qed.

(** Two snippets under the key a, before one under a-b. *)
Lemma nest_keeps_order_of_equal_keys_witness :
  ∃ st' out,
    nest 9%positive twin_store = Some (9%positive, st')
    ∧ arrays st' !! 9%positive = Some out
    ∧ filter (λ r, key_at (objs twin_store) r = Some "a") out
      = filter (λ r, key_at (objs twin_store) r = Some "a")
          [1; 2; 3]%positive.
Proof.
  apply (nest_keeps_order_of_equal_keys 9%positive twin_store
           [1; 2; 3]%positive "a" eq_refl).
  intros r Hr. in_cases Hr; by eexists.
Defined.
